(** * Teardown of the parsed index (builder/index-struct.c)

    A shallow embedding of [parse_context_init], [parse_context_free],
    [free_section] and [free_field] over an explicit heap of malloc'ed
    blocks, together with the properties of the release protocol:
    what is freed, in which order, how deep the recursion goes, and how
    the recursive teardown relates to an iterative walk. *)

From stdpp Require Import gmap list strings.

Open Scope N_scope.

(** ** Data model *)

(** Pointers are machine addresses; the null pointer is address 0. *)
Abbreviation addr := N.
Definition NULL : addr := 0.

(** [struct field]: the members [free_field] reads.  The C member [next]
    is [field_next] here, as [struct section] has a member of that name
    too. *)
Record field := mk_field {
  field_next : addr;
  key : addr;
  subkey : addr;
  value : addr
}.

(** [struct section]: the members [free_section] reads. *)
Record section := mk_section {
  section_next : addr;
  name : addr;
  fields : addr
}.

(** Modelled from the spec: [struct parse_context] is declared in
    index-struct.h, which is not part of the sources at hand.  The spec
    gives it no attribute beyond the structural pointer [parsed_index],
    the head of the Section chain. *)
Record parse_context := mk_context {
  parsed_index : addr
}.

(** A heap block: a section node, a field node, or a text (a [char *]
    string owned by a node). *)
Inductive block :=
  | BSection (s : section)
  | BField (f : field)
  | BText (s : string).

(** The member named by a [p->member] expression. *)
Inductive member := m_next | m_name | m_fields | m_key | m_subkey | m_value.

(** What the teardown does to memory, in program order: it reads a
    member of the node at [p], or it calls [free (p)]. *)
Inductive event :=
  | EvLoad (p : addr) (m : member)
  | EvFree (p : addr).

Inductive error :=
  | StackOverflow
  | BadLoad (p : addr) (m : member)
  | BadFree (p : addr)
  | LoopBudget.

Global Instance member_eq_dec : EqDecision member.
Proof. solve_decision. Defined.
Global Instance event_eq_dec : EqDecision event.
Proof. solve_decision. Defined.
Global Instance error_eq_dec : EqDecision error.
Proof. solve_decision. Defined.

(** ** The machine: a context, a heap and the trace so far *)

Record state := mk_state {
  ctx : parse_context;
  heap : gmap N block;
  trace : list event
}.

Inductive outcome (A : Type) :=
  | Done (a : A) (s : state)
  | Crash (e : error).
Arguments Done {A} a s.
Arguments Crash {A} e.

Definition M (A : Type) : Type := state → outcome A.

Definition ret {A} (a : A) : M A := λ s, Done a s.

Definition bind {A B} (m : M A) (k : A → M B) : M B := λ s,
  match m s with
  | Done a s' => k a s'
  | Crash e => Crash e
  end.

Definition raise {A} (e : error) : M A := λ _, Crash e.

Notation "'let*' x := m 'in' k" := (bind m (λ x, k))
  (at level 10, x name, m at level 100, k at level 200).
Notation "m ;;; k" := (bind m (λ _, k))
  (at level 100, k at level 200, right associativity).

Definition log (e : event) (s : state) : state :=
  mk_state (ctx s) (heap s) (trace s ++ [e]).

(** [free (p)]: a no-op on the null pointer, the release of the block at
    [p] when there is one, and a fault otherwise (a second free of the
    same block, or a pointer that malloc never returned). *)
Definition free (p : addr) : M unit := λ s,
  if decide (p = NULL) then Done tt (log (EvFree p) s)
  else match heap s !! p with
       | Some _ => Done tt (mk_state (ctx s) (delete p (heap s)) (trace s ++ [EvFree p]))
       | None => Crash (BadFree p)
       end.

(** [p->m] for a [struct section *p]: a fault when [p] is null, freed, or
    not a section. *)
Definition load_section (p : addr) (m : member) (sel : section → addr) : M addr := λ s,
  if decide (p = NULL) then Crash (BadLoad p m)
  else match heap s !! p with
       | Some (BSection r) => Done (sel r) (log (EvLoad p m) s)
       | _ => Crash (BadLoad p m)
       end.

(** [p->m] for a [struct field *p]. *)
Definition load_field (p : addr) (m : member) (sel : field → addr) : M addr := λ s,
  if decide (p = NULL) then Crash (BadLoad p m)
  else match heap s !! p with
       | Some (BField r) => Done (sel r) (log (EvLoad p m) s)
       | _ => Crash (BadLoad p m)
       end.

(** ** The program *)

(** [memset (context, 0, sizeof *context)]: every member becomes zero. *)
Definition parse_context_init : M unit := λ s,
  Done tt (mk_state (mk_context NULL) (heap s) (trace s)).

(** [free_field]; [d] is the number of nested activations the stack still
    has room for. *)
Fixpoint free_field (d : nat) (p : addr) : M unit :=
  match d with
  | O => raise StackOverflow
  | S d' =>
      if decide (p = NULL) then ret tt
      else
        let* nxt := load_field p m_next field_next in
        free_field d' nxt ;;;
        let* k := load_field p m_key key in
        free k ;;;
        let* sk := load_field p m_subkey subkey in
        free sk ;;;
        let* v := load_field p m_value value in
        free v ;;;
        free p
  end.

(** [free_section]. *)
Fixpoint free_section (d : nat) (p : addr) : M unit :=
  match d with
  | O => raise StackOverflow
  | S d' =>
      if decide (p = NULL) then ret tt
      else
        let* nxt := load_section p m_next section_next in
        free_section d' nxt ;;;
        let* n := load_section p m_name name in
        free n ;;;
        let* fs := load_section p m_fields fields in
        free_field d' fs ;;;
        free p
  end.

(** [parse_context_free]: [free_section (context->parsed_index)].  The
    budget [d] counts the activations of [free_section] and [free_field]
    below this call. *)
Definition parse_context_free (d : nat) : M unit := λ s,
  free_section d (parsed_index (ctx s)) s.

(** ** Well-formed chains *)

(** A field chain as the teardown meets it: the nodes reached from the
    head by following [next], each with the address it lives at. *)
Abbreviation fnode := (N * field)%type.

(** A section node, with its address and the field chain it owns. *)
Record snode := mk_snode {
  sn_addr : addr;
  sn_rec : section;
  sn_fields : list fnode
}.

(** A text pointer is null (the text is absent) or points to a text. *)
Definition text_at (h : gmap N block) (p : addr) : Prop :=
  p = NULL ∨ ∃ s, h !! p = Some (BText s).

(** [field_chain h p fl]: in heap [h], following [next] from [p] meets
    exactly the nodes [fl] and then the terminator. *)
Fixpoint field_chain (h : gmap N block) (p : addr) (fl : list fnode) : Prop :=
  match fl with
  | [] => p = NULL
  | (a, r) :: rest =>
      p = a ∧ p ≠ NULL ∧ h !! p = Some (BField r) ∧
      text_at h (key r) ∧ text_at h (subkey r) ∧ text_at h (value r) ∧
      field_chain h (field_next r) rest
  end.

Fixpoint section_chain (h : gmap N block) (p : addr) (sl : list snode) : Prop :=
  match sl with
  | [] => p = NULL
  | n :: rest =>
      p = sn_addr n ∧ p ≠ NULL ∧ h !! p = Some (BSection (sn_rec n)) ∧
      text_at h (name (sn_rec n)) ∧
      field_chain h (fields (sn_rec n)) (sn_fields n) ∧
      section_chain h (section_next (sn_rec n)) rest
  end.

(** The block a pointer owns: none for the null pointer. *)
Definition owned (p : addr) : list addr :=
  if decide (p = NULL) then [] else [p].

(** The blocks a chain owns: its nodes and their texts. *)
Fixpoint field_blocks (fl : list fnode) : list addr :=
  match fl with
  | [] => []
  | (a, r) :: rest =>
      field_blocks rest ++ owned (key r) ++ owned (subkey r) ++ owned (value r) ++ [a]
  end.

Fixpoint section_blocks (sl : list snode) : list addr :=
  match sl with
  | [] => []
  | n :: rest =>
      section_blocks rest ++ owned (name (sn_rec n)) ++ field_blocks (sn_fields n) ++ [sn_addr n]
  end.

(** The context owns the chain [sl], and ownership is exclusive: no block
    is reached twice. *)
Definition well_formed (s : state) (sl : list snode) : Prop :=
  section_chain (heap s) (parsed_index (ctx s)) sl ∧ NoDup (section_blocks sl).

Definition field_addrs (fl : list fnode) : list addr := fl.*1.
Definition section_addrs (sl : list snode) : list addr := sn_addr <$> sl.
Definition all_field_addrs (sl : list snode) : list addr :=
  concat ((λ n, field_addrs (sn_fields n)) <$> sl).

(** ** Observations on a run *)

(** The blocks released by a trace, in order: [free (NULL)] releases
    nothing. *)
Definition freed (t : list event) : list addr :=
  omap (λ e, match e with
             | EvFree p => if decide (p = NULL) then None else Some p
             | EvLoad _ _ => None
             end) t.

Definition is_section_block (h : gmap N block) (p : addr) : bool :=
  match h !! p with Some (BSection _) => true | _ => false end.
Definition is_field_block (h : gmap N block) (p : addr) : bool :=
  match h !! p with Some (BField _) => true | _ => false end.

(** The heap once the blocks [l] are gone. *)
Definition release_all (l : list addr) (h : gmap N block) : gmap N block :=
  foldl (λ h p, delete p h) h l.

(** The events of tearing down a field chain, as [free_field] is
    written. *)
Fixpoint field_trace (fl : list fnode) : list event :=
  match fl with
  | [] => []
  | (a, r) :: rest =>
      [EvLoad a m_next] ++ field_trace rest ++
      [EvLoad a m_key; EvFree (key r);
       EvLoad a m_subkey; EvFree (subkey r);
       EvLoad a m_value; EvFree (value r);
       EvFree a]
  end.

(** The events of tearing down a section chain, as [free_section] is
    written. *)
Fixpoint section_trace (sl : list snode) : list event :=
  match sl with
  | [] => []
  | n :: rest =>
      [EvLoad (sn_addr n) m_next] ++ section_trace rest ++
      [EvLoad (sn_addr n) m_name; EvFree (name (sn_rec n));
       EvLoad (sn_addr n) m_fields] ++
      field_trace (sn_fields n) ++ [EvFree (sn_addr n)]
  end.

(** The nesting depth the teardown of a chain reaches: the call on the
    terminator counts as one activation. *)
Definition field_depth (fl : list fnode) : nat := S (length fl).

Fixpoint section_depth (sl : list snode) : nat :=
  match sl with
  | [] => 1
  | n :: rest => S (section_depth rest `max` field_depth (sn_fields n))
  end.

(** ** Memory safety: the properties of a trace and of a state *)

(** No member of a block is read after the block was released. *)
Definition no_use_after_free (t : list event) : Prop :=
  ∀ t1 t2 p m, t = t1 ++ EvFree p :: t2 → EvLoad p m ∉ t2.

Definition precedes (e1 e2 : event) (t : list event) : Prop :=
  ∃ t1 t2 t3, t = t1 ++ e1 :: t2 ++ e2 :: t3.

Definition released_gone (s : state) : Prop :=
  ∀ p, EvFree p ∈ trace s → p = NULL ∨ heap s !! p = None.

Definition safe (s : state) : Prop :=
  released_gone s ∧ no_use_after_free (trace s).

Definition preserves {A} (m : M A) : Prop :=
  ∀ s a s', safe s → m s = Done a s' → safe s'.

(** A state keeps its context through [m]. *)
Definition keeps_ctx {A} (m : M A) : Prop :=
  ∀ s a s', m s = Done a s' → ctx s' = ctx s.

(** ** The iterative walk of the design notes

    These two definitions follow the spec's words, not the source: a
    forward walk that captures the link to the next node, releases the
    current node's owned resources and the node itself, and advances to
    the captured link until the terminator is reached.  The budget [n]
    bounds the iterations of the loop; there is no nesting. *)

Fixpoint release_fields_iter (n : nat) (p : addr) : M unit :=
  if decide (p = NULL) then ret tt
  else match n with
       | O => raise LoopBudget
       | S n' =>
           let* nxt := load_field p m_next field_next in
           let* k := load_field p m_key key in
           free k ;;;
           let* sk := load_field p m_subkey subkey in
           free sk ;;;
           let* v := load_field p m_value value in
           free v ;;;
           free p ;;;
           release_fields_iter n' nxt
       end.

(** The owned resources of a section go in the order of the spec's 4.2:
    the field chain, then the name. *)
Fixpoint release_sections_iter (nf n : nat) (p : addr) : M unit :=
  if decide (p = NULL) then ret tt
  else match n with
       | O => raise LoopBudget
       | S n' =>
           let* nxt := load_section p m_next section_next in
           let* fs := load_section p m_fields fields in
           release_fields_iter nf fs ;;;
           let* nm := load_section p m_name name in
           free nm ;;;
           free p ;;;
           release_sections_iter nf n' nxt
       end.

Definition release_iter (nf n : nat) : M unit := λ s,
  release_sections_iter nf n (parsed_index (ctx s)) s.

(** The blocks the walk releases, in its order. *)
Fixpoint field_blocks_iter (fl : list fnode) : list addr :=
  match fl with
  | [] => []
  | (a, r) :: rest =>
      (owned (key r) ++ owned (subkey r) ++ owned (value r) ++ [a]) ++ field_blocks_iter rest
  end.

Fixpoint section_blocks_iter (sl : list snode) : list addr :=
  match sl with
  | [] => []
  | n :: rest =>
      (field_blocks_iter (sn_fields n) ++ owned (name (sn_rec n)) ++ [sn_addr n])
      ++ section_blocks_iter rest
  end.

(** ** The release order of the spec's 4.2

    Following the spec's words: the rest of the chain, then the field
    chain of the section, then its name, then the node. *)
Fixpoint spec_section_order (sl : list snode) : list addr :=
  match sl with
  | [] => []
  | n :: rest =>
      spec_section_order rest ++ field_blocks (sn_fields n) ++
      owned (name (sn_rec n)) ++ [sn_addr n]
  end.

(** ** Concrete contexts *)

Definition chain_head (sl : list snode) : addr :=
  match sl with [] => NULL | n :: _ => sn_addr n end.

(** [n] chained sections without fields.  Section [k] (from 1) lives at
    address [2k-1] and owns its name at [2k]; the head of the chain is
    section [n], and section 1 is the last one. *)
Fixpoint bare_chain (n : nat) : list snode :=
  match n with
  | O => []
  | S k =>
      mk_snode (N.of_nat (2 * k + 1))
               (mk_section (chain_head (bare_chain k)) (N.of_nat (2 * k + 2)) NULL) []
      :: bare_chain k
  end.

Fixpoint bare_heap (n : nat) : gmap N block :=
  match n with
  | O => ∅
  | S k =>
      <[N.of_nat (2 * k + 1) :=
          BSection (mk_section (chain_head (bare_chain k)) (N.of_nat (2 * k + 2)) NULL)]>
        (<[N.of_nat (2 * k + 2) := BText "s"]> (bare_heap k))
  end.

Definition bare_state (n : nat) : state :=
  mk_state (mk_context (chain_head (bare_chain n))) (bare_heap n) [].

(** The scenario of the spec: one section "os-version" with two fields,
    the first without subkey. *)
Definition os_field2 : field := mk_field NULL 7 8 9.
Definition os_field1 : field := mk_field 6 4 NULL 5.
Definition os_section : section := mk_section NULL 2 3.

Definition os_heap : gmap N block :=
  <[1 := BSection os_section]> (<[2 := BText "os-version"]>
  (<[3 := BField os_field1]> (<[4 := BText "debian-9"]> (<[5 := BText "..."]>
  (<[6 := BField os_field2]> (<[7 := BText "fedora-30"]> (<[8 := BText "arch"]>
  (<[9 := BText "x86_64"]> ∅)))))))).

Definition os_fields : list fnode := [(3, os_field1); (6, os_field2)].
Definition os_chain : list snode := [mk_snode 1 os_section os_fields].
Definition os_state : state := mk_state (mk_context 1) os_heap [].

(** Two sections with two fields each. *)
Definition grid_heap : gmap N block :=
  <[1 := BSection (mk_section 10 2 3)]> (<[2 := BText "a"]>
  (<[3 := BField (mk_field 6 4 NULL 5)]> (<[4 := BText "k1"]> (<[5 := BText "v1"]>
  (<[6 := BField (mk_field NULL 7 8 9)]> (<[7 := BText "k2"]> (<[8 := BText "sk2"]>
  (<[9 := BText "v2"]>
  (<[10 := BSection (mk_section NULL 11 12)]> (<[11 := BText "b"]>
  (<[12 := BField (mk_field 15 13 NULL 14)]> (<[13 := BText "k3"]> (<[14 := BText "v3"]>
  (<[15 := BField (mk_field NULL 16 NULL 17)]> (<[16 := BText "k4"]>
  (<[17 := BText "v4"]> ∅)))))))))))))))).

Definition grid_chain : list snode :=
  [mk_snode 1 (mk_section 10 2 3)
     [(3, mk_field 6 4 NULL 5); (6, mk_field NULL 7 8 9)];
   mk_snode 10 (mk_section NULL 11 12)
     [(12, mk_field 15 13 NULL 14); (15, mk_field NULL 16 NULL 17)]].

Definition grid_state : state := mk_state (mk_context 1) grid_heap [].

(** ** Chains of either kind *)

Inductive chain :=
  | Sections (p : addr) (sl : list snode)
  | Fields (p : addr) (fl : list fnode).

(** The chain is in the heap, and it owns its blocks exclusively. *)
Definition chain_at (h : gmap N block) (ch : chain) : Prop :=
  match ch with
  | Sections p sl => section_chain h p sl ∧ NoDup (section_blocks sl)
  | Fields p fl => field_chain h p fl ∧ NoDup (field_blocks fl)
  end.

(** The recursive teardown of the source. *)
Definition release (d : nat) (ch : chain) : M unit :=
  match ch with
  | Sections p _ => free_section d p
  | Fields p _ => free_field d p
  end.

(** The iterative walk of the design notes. *)
Definition release_walk (nf n : nat) (ch : chain) : M unit :=
  match ch with
  | Sections p _ => release_sections_iter nf n p
  | Fields p _ => release_fields_iter n p
  end.

Definition chain_depth (ch : chain) : nat :=
  match ch with
  | Sections _ sl => section_depth sl
  | Fields _ fl => field_depth fl
  end.

(** All the nodes of the chain; for a section chain, the field nodes of
    its sections too. *)
Definition chain_nodes (ch : chain) : list addr :=
  match ch with
  | Sections _ sl => section_addrs sl ++ all_field_addrs sl
  | Fields _ fl => field_addrs fl
  end.

Definition chain_blocks (ch : chain) : list addr :=
  match ch with
  | Sections _ sl => section_blocks sl
  | Fields _ fl => field_blocks fl
  end.

(** The length of the chain, and of the longest field chain in it. *)
Definition chain_length (ch : chain) : nat :=
  match ch with
  | Sections _ sl => length sl
  | Fields _ fl => length fl
  end.

Definition chain_width (ch : chain) : nat :=
  match ch with
  | Sections _ sl => max_list ((λ n, length (sn_fields n)) <$> sl)
  | Fields _ _ => 0
  end.

(** The state the release of [os_state] ends in. *)
Definition os_released : state :=
  mk_state (mk_context 1) ∅ (section_trace os_chain).

(** Ill-formed heaps: two fields sharing their key text, and a section
    chain that loops back on itself. *)
Definition shared_heap : gmap N block :=
  <[3 := BField (mk_field 6 4 NULL 5)]> (<[4 := BText "k"]> (<[5 := BText "v"]>
  (<[6 := BField (mk_field NULL 4 NULL 9)]> (<[9 := BText "w"]> ∅)))).

Definition cyclic_heap : gmap N block :=
  <[1 := BSection (mk_section 2 NULL NULL)]>
  (<[2 := BSection (mk_section 1 NULL NULL)]> ∅).

(** ** Further notions for the properties of the teardown *)

(** The chain is in the heap; ownership may or may not be exclusive. *)
Definition chain_in (h : gmap N block) (ch : chain) : Prop :=
  match ch with
  | Sections p sl => section_chain h p sl
  | Fields p fl => field_chain h p fl
  end.

(** A set of section addresses that following [next] never leaves: a
    chain with a cycle, without terminator. *)
Definition section_loop (h : gmap N block) (C : list addr) : Prop :=
  ∀ a, a ∈ C →
    a ≠ NULL ∧ ∃ r, h !! a = Some (BSection r) ∧ section_next r ∈ C.

Definition field_loop (h : gmap N block) (C : list addr) : Prop :=
  ∀ a, a ∈ C →
    a ≠ NULL ∧ ∃ r, h !! a = Some (BField r) ∧ field_next r ∈ C.

(** The calls to [free] and the member reads of a trace. *)
Definition is_free_call (e : event) : bool :=
  match e with EvFree _ => true | EvLoad _ _ => false end.
Definition is_load (e : event) : bool :=
  match e with EvLoad _ _ => true | EvFree _ => false end.

Definition free_calls (t : list event) : nat := length (filter is_free_call t).
Definition loads (t : list event) : nat := length (filter is_load t).

(** The number of field nodes under a section chain. *)
Definition total_fields (sl : list snode) : nat :=
  sum_list ((λ n, length (sn_fields n)) <$> sl).

(** Two contexts in one heap: a section without fields at 1, and a
    section with one field at 20. *)
Definition pair_heap : gmap N block :=
  <[1 := BSection (mk_section NULL 2 NULL)]> (<[2 := BText "a"]>
  (<[20 := BSection (mk_section NULL 21 22)]> (<[21 := BText "b"]>
  (<[22 := BField (mk_field NULL 23 NULL 24)]> (<[23 := BText "k"]>
  (<[24 := BText "v"]> ∅)))))).

Definition pair_left : list snode := [mk_snode 1 (mk_section NULL 2 NULL) []].
Definition pair_right : list snode :=
  [mk_snode 20 (mk_section NULL 21 22) [(22, mk_field NULL 23 NULL 24)]].

(** The fields of [shared_heap]: both nodes hold the key text at 4. *)
Definition shared_fields : list fnode :=
  [(3, mk_field 6 4 NULL 5); (6, mk_field NULL 4 NULL 9)].

(** A field node whose [next] is the node itself. *)
Definition looping_field_heap : gmap N block :=
  <[3 := BField (mk_field 3 NULL NULL NULL)]> ∅.

(** [m] only takes blocks away and only adds events: whenever it
    returns, the heap is a part of the one it started from and the trace
    extends the one it started from. *)
Definition only_releases {A} (m : M A) : Prop :=
  ∀ s a s', m s = Done a s' →
    heap s' ⊆ heap s ∧ trace s `prefix_of` trace s'.

(** ** Basic facts about the machine *)

Lemma bind_Done {A B} (m : M A) (k : A → M B) s a s' :
  m s = Done a s' → bind m k s = k a s'.
Proof. unfold bind. by intros ->. Qed.

Lemma bind_Crash {A B} (m : M A) (k : A → M B) s e :
  m s = Crash e → bind m k s = Crash e.
Proof. unfold bind. by intros ->. Qed.

Lemma load_field_Done p m sel r c h t :
  p ≠ NULL → h !! p = Some (BField r) →
  load_field p m sel (mk_state c h t) = Done (sel r) (mk_state c h (t ++ [EvLoad p m])).
Proof. intros Hp Hh. unfold load_field. simpl. rewrite decide_False, Hh; done. Qed.

Lemma load_section_Done p m sel r c h t :
  p ≠ NULL → h !! p = Some (BSection r) →
  load_section p m sel (mk_state c h t) = Done (sel r) (mk_state c h (t ++ [EvLoad p m])).
Proof. intros Hp Hh. unfold load_section. simpl. rewrite decide_False, Hh; done. Qed.

Lemma free_block_Done p c h t :
  p ≠ NULL → is_Some (h !! p) →
  free p (mk_state c h t) = Done tt (mk_state c (delete p h) (t ++ [EvFree p])).
Proof. intros Hp [b Hb]. unfold free. simpl. rewrite decide_False, Hb; done. Qed.

Lemma free_text_Done p c h t :
  text_at h p →
  free p (mk_state c h t) = Done tt (mk_state c (release_all (owned p) h) (t ++ [EvFree p])).
Proof.
  intros [-> | [s Hs]].
  - reflexivity.
  - unfold free, owned. simpl. destruct (decide (p = NULL)); [done |].
    by rewrite Hs.
Qed.

Lemma release_all_app l1 l2 h :
  release_all (l1 ++ l2) h = release_all l2 (release_all l1 h).
Proof. apply foldl_app. Qed.

Lemma lookup_release_all l : ∀ h p,
  release_all l h !! p = if decide (p ∈ l) then None else h !! p.
Proof.
  unfold release_all.
  induction l as [| a l IH]; intros h p; cbn [foldl].
  - destruct (decide (p ∈ [])) as [Hin | _]; [| done].
    by apply elem_of_nil in Hin.
  - rewrite IH.
    destruct (decide (p ∈ l)) as [Hin | Hnin], (decide (p ∈ a :: l)) as [Hin' | Hnin'];
      try done.
    + exfalso. apply Hnin'. by right.
    + apply elem_of_cons in Hin' as [-> | ?]; [apply lookup_delete_eq | done].
    + apply lookup_delete_ne. intros ->. apply Hnin'. by left.
Qed.

Lemma lookup_release_all_notin l h p :
  p ∉ l → release_all l h !! p = h !! p.
Proof. intros H. rewrite lookup_release_all, decide_False; done. Qed.

Lemma release_all_perm l1 l2 h :
  (∀ p, p ∈ l1 ↔ p ∈ l2) → release_all l1 h = release_all l2 h.
Proof.
  intros H. apply map_eq. intros p. rewrite !lookup_release_all.
  destruct (decide (p ∈ l1)) as [H1 | H1], (decide (p ∈ l2)) as [H2 | H2];
    try done; exfalso.
  - apply H2, H, H1.
  - apply H1, H, H2.
Qed.

Lemma elem_of_owned p q : q ∈ owned p ↔ q = p ∧ p ≠ NULL.
Proof.
  unfold owned. destruct (decide (p = NULL)) as [-> | Hp].
  - rewrite elem_of_nil. tauto.
  - rewrite list_elem_of_singleton. tauto.
Qed.

(** [x] is not in [l] because a [NoDup] hypothesis [H] keeps [l] apart
    from a list that holds [x]. *)
Ltac by_disjoint H :=
  let Hin := fresh "Hin" in
  intros Hin; apply (H _ Hin); set_solver.

(** A chain only depends on the blocks it owns. *)
Lemma text_at_agree h h' p :
  (∀ x, x ∈ owned p → h' !! x = h !! x) → text_at h p → text_at h' p.
Proof.
  intros Hag [-> | [s Hs]]; [by left |].
  destruct (decide (p = NULL)) as [-> | Hp]; [by left |].
  right. exists s. rewrite Hag; [done |]. by apply elem_of_owned.
Qed.

Lemma field_chain_agree h h' fl : ∀ p,
  (∀ x, x ∈ field_blocks fl → h' !! x = h !! x) →
  field_chain h p fl → field_chain h' p fl.
Proof.
  induction fl as [| [a r] rest IH]; intros p Hag; simpl; [done |].
  intros (-> & Hp & Hl & Hk & Hsk & Hv & Hc).
  simpl in Hag.
  assert (Hsub : ∀ q x, q ∈ [key r; subkey r; value r] → x ∈ owned q →
                        h' !! x = h !! x).
  { intros q x Hq Hx. apply Hag. rewrite !elem_of_app.
    rewrite !elem_of_cons, elem_of_nil in Hq.
    destruct Hq as [-> | [-> | [-> | []]]]; tauto. }
  repeat split; try done.
  - rewrite Hag; [done |]. rewrite !elem_of_app, list_elem_of_singleton. tauto.
  - eapply text_at_agree; [| exact Hk]. intros x. apply Hsub. set_solver.
  - eapply text_at_agree; [| exact Hsk]. intros x. apply Hsub. set_solver.
  - eapply text_at_agree; [| exact Hv]. intros x. apply Hsub. set_solver.
  - apply IH; [| done]. intros x Hx. apply Hag. rewrite elem_of_app. tauto.
Qed.

Lemma section_chain_agree h h' sl : ∀ p,
  (∀ x, x ∈ section_blocks sl → h' !! x = h !! x) →
  section_chain h p sl → section_chain h' p sl.
Proof.
  induction sl as [| n rest IH]; intros p Hag; simpl; [done |].
  intros (-> & Hp & Hl & Hn & Hf & Hc).
  simpl in Hag.
  repeat split; try done.
  - rewrite Hag; [done |]. rewrite !elem_of_app, list_elem_of_singleton. tauto.
  - eapply text_at_agree; [| exact Hn]. intros x Hx. apply Hag.
    rewrite !elem_of_app. tauto.
  - eapply field_chain_agree; [| exact Hf]. intros x Hx. apply Hag.
    rewrite !elem_of_app. tauto.
  - apply IH; [| done]. intros x Hx. apply Hag. rewrite elem_of_app. tauto.
Qed.

(** ** Running the teardown on a well-formed chain *)

Lemma free_field_run fl : ∀ d p c h t,
  field_chain h p fl → NoDup (field_blocks fl) → (field_depth fl ≤ d)%nat →
  free_field d p (mk_state c h t)
  = Done tt (mk_state c (release_all (field_blocks fl) h) (t ++ field_trace fl)).
Proof.
  unfold field_depth.
  induction fl as [| [a r] rest IH]; intros d p c h t Hc Hnd Hd;
    (destruct d as [| d]; [lia |]); simpl in Hc |- *.
  - subst p. rewrite decide_True by done. unfold ret. by rewrite app_nil_r.
  - destruct Hc as (-> & Hp & Hl & Hk & Hsk & Hv & Hc).
    rewrite decide_False by done.
    cbn [field_blocks] in Hnd. rewrite !NoDup_app in Hnd.
    destruct Hnd as (Hnd0 & Hd0 & _ & Hd1 & _ & Hd2 & _ & Hd3 & _).
    erewrite bind_Done by (by apply load_field_Done).
    erewrite bind_Done by (apply IH; [done | done | simpl in Hd; lia]).
    set (h1 := release_all (field_blocks rest) h).
    assert (Hl1 : h1 !! a = Some (BField r)).
    { unfold h1. rewrite lookup_release_all_notin; [done |].
      by_disjoint Hd0. }
    erewrite bind_Done by (by apply load_field_Done).
    erewrite bind_Done.
    2:{ apply free_text_Done. eapply text_at_agree; [| exact Hk].
        intros x Hx. apply lookup_release_all_notin. by_disjoint Hd0. }
    set (h2 := release_all (owned (key r)) h1).
    assert (Hl2 : h2 !! a = Some (BField r)).
    { unfold h2. rewrite lookup_release_all_notin; [done |].
      by_disjoint Hd1. }
    erewrite bind_Done by (by apply load_field_Done).
    erewrite bind_Done.
    2:{ apply free_text_Done. eapply text_at_agree; [| exact Hsk].
        intros x Hx. unfold h2, h1. rewrite !lookup_release_all_notin; [done | |].
        - by_disjoint Hd0.
        - by_disjoint Hd1. }
    set (h3 := release_all (owned (subkey r)) h2).
    assert (Hl3 : h3 !! a = Some (BField r)).
    { unfold h3. rewrite lookup_release_all_notin; [done |].
      by_disjoint Hd2. }
    erewrite bind_Done by (by apply load_field_Done).
    erewrite bind_Done.
    2:{ apply free_text_Done. eapply text_at_agree; [| exact Hv].
        intros x Hx. unfold h3, h2, h1. rewrite !lookup_release_all_notin; [done | | |].
        - by_disjoint Hd0.
        - by_disjoint Hd1.
        - by_disjoint Hd2. }
    set (h4 := release_all (owned (value r)) h3).
    rewrite free_block_Done.
    + f_equal. f_equal.
      * rewrite !release_all_app. reflexivity.
      * rewrite <- !app_assoc. reflexivity.
    + done.
    + unfold h4. rewrite lookup_release_all_notin; [by eexists |].
      by_disjoint Hd3.
Qed.

Lemma free_section_run sl : ∀ d p c h t,
  section_chain h p sl → NoDup (section_blocks sl) → (section_depth sl ≤ d)%nat →
  free_section d p (mk_state c h t)
  = Done tt (mk_state c (release_all (section_blocks sl) h) (t ++ section_trace sl)).
Proof.
  induction sl as [| [a r fl] rest IH]; intros d p c h t Hc Hnd Hd;
    (destruct d as [| d]; [simpl in Hd; lia |]); simpl in Hc |- *.
  - subst p. rewrite decide_True by done. unfold ret. by rewrite app_nil_r.
  - destruct Hc as (-> & Hp & Hl & Hn & Hf & Hc).
    rewrite decide_False by done.
    cbn [section_blocks sn_rec sn_addr sn_fields] in Hnd. rewrite !NoDup_app in Hnd.
    destruct Hnd as (Hnd0 & Hd0 & _ & Hd1 & Hndf & Hd2 & _).
    simpl in Hd.
    erewrite bind_Done by (by apply load_section_Done).
    erewrite bind_Done by (apply IH; [done | done | lia]).
    set (h1 := release_all (section_blocks rest) h).
    assert (Hl1 : h1 !! a = Some (BSection r)).
    { unfold h1. rewrite lookup_release_all_notin; [done |].
      by_disjoint Hd0. }
    erewrite bind_Done by (by apply load_section_Done).
    erewrite bind_Done.
    2:{ apply free_text_Done. eapply text_at_agree; [| exact Hn].
        intros x Hx. apply lookup_release_all_notin. by_disjoint Hd0. }
    set (h2 := release_all (owned (name r)) h1).
    assert (Hl2 : h2 !! a = Some (BSection r)).
    { unfold h2. rewrite lookup_release_all_notin; [done |].
      by_disjoint Hd1. }
    erewrite bind_Done by (by apply load_section_Done).
    erewrite bind_Done.
    2:{ apply free_field_run; [| done | unfold field_depth in *; lia].
        eapply field_chain_agree; [| exact Hf].
        intros x Hx. unfold h2, h1. rewrite !lookup_release_all_notin; [done | |].
        - by_disjoint Hd0.
        - by_disjoint Hd1. }
    rewrite free_block_Done.
    + f_equal. f_equal.
      * rewrite !release_all_app. reflexivity.
      * rewrite <- !app_assoc. reflexivity.
    + done.
    + rewrite lookup_release_all_notin; [by eexists |].
      by_disjoint Hd2.
Qed.

(** With too small a budget the recursion runs out of stack. *)
Lemma free_field_overflow fl : ∀ d p c h t,
  field_chain h p fl → (d < field_depth fl)%nat →
  free_field d p (mk_state c h t) = Crash StackOverflow.
Proof.
  unfold field_depth.
  induction fl as [| [a r] rest IH]; intros d p c h t Hc Hd;
    (destruct d as [| d]; [done |]); simpl in Hc, Hd |- *; [lia |].
  destruct Hc as (-> & Hp & Hl & _ & _ & _ & Hc).
  rewrite decide_False by done.
  erewrite bind_Done by (by apply load_field_Done).
  apply bind_Crash. apply IH; [done | lia].
Qed.

Lemma free_section_overflow sl : ∀ d p c h t,
  section_chain h p sl → NoDup (section_blocks sl) → (d < section_depth sl)%nat →
  free_section d p (mk_state c h t) = Crash StackOverflow.
Proof.
  induction sl as [| [a r fl] rest IH]; intros d p c h t Hc Hnd Hd;
    (destruct d as [| d]; [done |]); simpl in Hc, Hd |- *; [lia |].
  destruct Hc as (-> & Hp & Hl & Hn & Hf & Hc).
  rewrite decide_False by done.
  cbn [section_blocks sn_rec sn_addr sn_fields] in Hnd. rewrite !NoDup_app in Hnd.
  destruct Hnd as (Hnd0 & Hd0 & _ & Hd1 & Hndf & Hd2 & _).
  erewrite bind_Done by (by apply load_section_Done).
  destruct (decide (d < section_depth rest)%nat) as [Hlt | Hge].
  { apply bind_Crash. by apply IH. }
  erewrite bind_Done by (apply free_section_run; [done | done | lia]).
  set (h1 := release_all (section_blocks rest) h).
  assert (Hl1 : h1 !! a = Some (BSection r)).
  { unfold h1. rewrite lookup_release_all_notin; [done |].
    by_disjoint Hd0. }
  erewrite bind_Done by (by apply load_section_Done).
  erewrite bind_Done.
  2:{ apply free_text_Done. eapply text_at_agree; [| exact Hn].
      intros x Hx. apply lookup_release_all_notin. by_disjoint Hd0. }
  set (h2 := release_all (owned (name r)) h1).
  assert (Hl2 : h2 !! a = Some (BSection r)).
  { unfold h2. rewrite lookup_release_all_notin; [done |].
    by_disjoint Hd1. }
  erewrite bind_Done by (by apply load_section_Done).
  apply bind_Crash. apply (free_field_overflow fl); [| lia].
  eapply field_chain_agree; [| exact Hf].
  intros x Hx. unfold h2, h1. rewrite !lookup_release_all_notin; [done | |].
  - by_disjoint Hd0.
  - by_disjoint Hd1.
Qed.

(** ** What a run releases *)

Lemma freed_app t1 t2 : freed (t1 ++ t2) = freed t1 ++ freed t2.
Proof. apply omap_app. Qed.

Lemma freed_free p : freed [EvFree p] = owned p.
Proof. unfold freed, owned. simpl. by destruct (decide (p = NULL)). Qed.

Lemma freed_free_node p : p ≠ NULL → freed [EvFree p] = [p].
Proof. intros Hp. rewrite freed_free. unfold owned. by rewrite decide_False. Qed.

Lemma owned_node p : p ≠ NULL → owned p = [p].
Proof. intros Hp. unfold owned. by rewrite decide_False. Qed.

Lemma freed_field_trace h fl : ∀ p,
  field_chain h p fl → freed (field_trace fl) = field_blocks fl.
Proof.
  induction fl as [| [a r] rest IH]; intros p Hc; [done |].
  destruct Hc as (-> & Hp & _ & _ & _ & _ & Hc).
  cbn [field_trace field_blocks].
  rewrite !freed_app, (IH _ Hc), <- (owned_node a Hp).
  change (freed [EvLoad a m_next]) with (@nil N). rewrite app_nil_l. f_equal.
  unfold freed, owned. simpl.
  by destruct (decide (key r = NULL)), (decide (subkey r = NULL)),
       (decide (value r = NULL)), (decide (a = NULL)).
Qed.

Lemma freed_section_trace h sl : ∀ p,
  section_chain h p sl → freed (section_trace sl) = section_blocks sl.
Proof.
  induction sl as [| [a r fl] rest IH]; intros p Hc; [done |].
  destruct Hc as (-> & Hp & _ & _ & Hf & Hc). simpl in Hp, Hf, Hc.
  cbn [section_trace section_blocks sn_addr sn_rec sn_fields].
  rewrite !freed_app, (IH _ Hc), (freed_field_trace _ _ _ Hf), <- (owned_node a Hp).
  change (freed [EvLoad a m_next]) with (@nil N). rewrite app_nil_l. f_equal.
  change (freed [EvLoad a m_name; EvFree (name r); EvLoad a m_fields])
    with (freed [EvFree (name r)]).
  by rewrite !freed_free.
Qed.

(** Every node of a chain is among the blocks it owns. *)
Lemma field_addrs_blocks fl x : x ∈ field_addrs fl → x ∈ field_blocks fl.
Proof.
  unfold field_addrs. induction fl as [| [a r] rest IH]; simpl; [done |].
  rewrite elem_of_cons, !elem_of_app, list_elem_of_singleton. tauto.
Qed.

Lemma section_addrs_blocks sl x : x ∈ section_addrs sl → x ∈ section_blocks sl.
Proof.
  unfold section_addrs. induction sl as [| n rest IH]; simpl; [done |].
  rewrite elem_of_cons, !elem_of_app, list_elem_of_singleton. tauto.
Qed.

Lemma all_field_addrs_blocks sl x : x ∈ all_field_addrs sl → x ∈ section_blocks sl.
Proof.
  unfold all_field_addrs. induction sl as [| n rest IH]; simpl; [done |].
  rewrite !elem_of_app. intros [H | H]; [| tauto].
  apply field_addrs_blocks in H. tauto.
Qed.

(** Sorting the released blocks by what they held in the heap before the
    run. *)
Lemma owned_text_kind h p :
  text_at h p →
  filter (is_section_block h) (owned p) = [] ∧ filter (is_field_block h) (owned p) = [].
Proof.
  unfold owned. intros [-> | [s Hs]]; [done |].
  destruct (decide (p = NULL)); [done |].
  unfold is_section_block, is_field_block.
  rewrite !filter_cons, !filter_nil, Hs. done.
Qed.

Lemma field_blocks_kind h fl : ∀ p,
  field_chain h p fl →
  filter (is_section_block h) (field_blocks fl) = [] ∧
  filter (is_field_block h) (field_blocks fl) = reverse (field_addrs fl).
Proof.
  unfold field_addrs.
  induction fl as [| [a r] rest IH]; intros p Hc; simpl in Hc |- *; [done |].
  destruct Hc as (-> & Hp & Hl & Hk & Hsk & Hv & Hc).
  destruct (IH _ Hc) as [IH1 IH2].
  destruct (owned_text_kind _ _ Hk) as [K1 K2].
  destruct (owned_text_kind _ _ Hsk) as [SK1 SK2].
  destruct (owned_text_kind _ _ Hv) as [V1 V2].
  rewrite !filter_app, IH1, IH2, K1, K2, SK1, SK2, V1, V2, reverse_cons.
  unfold is_section_block, is_field_block.
  rewrite !filter_cons, !filter_nil, Hl. done.
Qed.

Lemma section_blocks_kind h sl : ∀ p,
  section_chain h p sl →
  filter (is_section_block h) (section_blocks sl) = reverse (section_addrs sl) ∧
  filter (is_field_block h) (section_blocks sl)
  = concat (reverse ((λ n, reverse (field_addrs (sn_fields n))) <$> sl)).
Proof.
  unfold section_addrs.
  induction sl as [| [a r fl] rest IH]; intros p Hc; simpl in Hc |- *; [done |].
  destruct Hc as (-> & Hp & Hl & Hn & Hf & Hc).
  destruct (IH _ Hc) as [IH1 IH2].
  destruct (owned_text_kind _ _ Hn) as [N1 N2].
  destruct (field_blocks_kind _ _ _ Hf) as [F1 F2].
  rewrite !filter_app, IH1, IH2, N1, N2, F1, F2, !reverse_cons, concat_app.
  unfold is_section_block, is_field_block.
  rewrite !filter_cons, !filter_nil, Hl. simpl. by rewrite !app_nil_r.
Qed.

Lemma length_concat_uniform {A} (ll : list (list A)) m :
  Forall (λ l, length l = m) ll → length (concat ll) = (length ll * m)%nat.
Proof.
  induction 1 as [| l ll Hl _ IH]; simpl; [done |].
  rewrite length_app, IH, Hl. done.
Qed.

(** ** Memory safety of the machine

    A run that ends in [Done] never read a block it had released: a load
    faults on a released block, and nothing is ever allocated. *)

Lemma snoc_split {A} (t t1 t2 : list A) (e x : A) :
  t ++ [e] = t1 ++ x :: t2 →
  (t2 = [] ∧ t = t1 ∧ e = x) ∨ (∃ t2', t2 = t2' ++ [e] ∧ t = t1 ++ x :: t2').
Proof.
  destruct t2 as [| y t2' _] using rev_ind; intros H.
  - left. apply app_inj_tail in H as [-> ->]. done.
  - right. exists t2'.
    change (t1 ++ x :: t2' ++ [y]) with (t1 ++ (x :: t2') ++ [y]) in H.
    rewrite app_assoc in H. apply app_inj_tail in H as [-> ->]. done.
Qed.

Lemma preserves_ret {A} (a : A) : preserves (ret a).
Proof. intros s a' s' Hs [= _ <-]. done. Qed.

Lemma preserves_raise {A} e : preserves (@raise A e).
Proof. intros s a s' _ H. done. Qed.

Lemma preserves_bind {A B} (m : M A) (k : A → M B) :
  preserves m → (∀ a, preserves (k a)) → preserves (bind m k).
Proof.
  intros Hm Hk s b s' Hs. unfold bind.
  destruct (m s) as [a s1 |] eqn:E; [| done].
  intros H. eapply Hk; [| exact H]. eapply Hm; [exact Hs | exact E].
Qed.

Lemma safe_load s p m b :
  safe s → p ≠ NULL → heap s !! p = Some b → safe (log (EvLoad p m) s).
Proof.
  intros [Hg Hu] Hp Hb. split.
  - intros q Hq. simpl in Hq |- *. apply elem_of_app in Hq as [Hq | Hq].
    + by apply Hg.
    + apply list_elem_of_singleton in Hq. done.
  - intros t1 t2 q m' Heq. simpl in Heq.
    apply snoc_split in Heq as [(_ & _ & ?) | (t2' & -> & Heq)]; [done |].
    rewrite elem_of_app, list_elem_of_singleton. intros [Hin | [= -> ->]].
    + by apply (Hu _ _ _ m' Heq).
    + destruct (Hg p) as [? | Hnone]; [| done | congruence].
      rewrite Heq. set_solver.
Qed.

Lemma preserves_load_section p m sel : preserves (load_section p m sel).
Proof.
  intros s a s' Hs. unfold load_section.
  destruct (decide (p = NULL)); [done |].
  destruct (heap s !! p) as [[r | |] |] eqn:E; try done.
  intros [= _ <-]. by eapply safe_load.
Qed.

Lemma preserves_load_field p m sel : preserves (load_field p m sel).
Proof.
  intros s a s' Hs. unfold load_field.
  destruct (decide (p = NULL)); [done |].
  destruct (heap s !! p) as [[| r |] |] eqn:E; try done.
  intros [= _ <-]. by eapply safe_load.
Qed.

Lemma no_use_after_free_snoc_free t p :
  no_use_after_free t → no_use_after_free (t ++ [EvFree p]).
Proof.
  intros Hu t1 t2 q m Heq.
  apply snoc_split in Heq as [(-> & _ & _) | (t2' & -> & Heq)].
  - apply not_elem_of_nil.
  - rewrite elem_of_app, list_elem_of_singleton. intros [Hin | ?]; [| done].
    by apply (Hu _ _ _ m Heq).
Qed.

Lemma preserves_free p : preserves (free p).
Proof.
  intros s a s' [Hg Hu]. unfold free.
  destruct (decide (p = NULL)) as [-> | Hp].
  - intros [= _ <-]. split.
    + intros q Hq. simpl in Hq |- *. apply elem_of_app in Hq as [Hq | Hq].
      * by apply Hg.
      * apply list_elem_of_singleton in Hq as [= ->]. by left.
    + by apply no_use_after_free_snoc_free.
  - destruct (heap s !! p) as [b |] eqn:E; [| done].
    intros [= _ <-]. split.
    + intros q Hq. simpl in Hq |- *. apply elem_of_app in Hq as [Hq | Hq].
      * destruct (Hg _ Hq) as [? | Hn]; [by left | right].
        rewrite lookup_delete. by destruct (decide (p = q)).
      * apply list_elem_of_singleton in Hq as [= ->]. right. apply lookup_delete_eq.
    + by apply no_use_after_free_snoc_free.
Qed.

Lemma preserves_free_field d : ∀ p, preserves (free_field d p).
Proof.
  induction d as [| d IH]; intros p; simpl.
  - apply preserves_raise.
  - destruct (decide (p = NULL)); [apply preserves_ret |].
    repeat (apply preserves_bind; [| intros ?]);
      auto using preserves_load_field, preserves_free.
Qed.

Lemma preserves_free_section d : ∀ p, preserves (free_section d p).
Proof.
  induction d as [| d IH]; intros p; simpl.
  - apply preserves_raise.
  - destruct (decide (p = NULL)); [apply preserves_ret |].
    repeat (apply preserves_bind; [| intros ?]);
      auto using preserves_load_section, preserves_free, preserves_free_field.
Qed.

Lemma safe_start c h : safe (mk_state c h []).
Proof.
  split.
  - intros p Hp. by apply elem_of_nil in Hp.
  - intros t1 t2 p m Heq. by destruct t1.
Qed.

(** The events of the teardown of a well-formed chain are safe: run the
    teardown from an empty trace. *)
Lemma field_trace_safe h fl p :
  field_chain h p fl → NoDup (field_blocks fl) → no_use_after_free (field_trace fl).
Proof.
  intros Hc Hnd.
  pose proof (free_field_run fl (field_depth fl) p (mk_context NULL) h [] Hc Hnd
                (le_n _)) as Hrun.
  apply (preserves_free_field _ _ _ _ _ (safe_start _ _)) in Hrun as [_ Hu].
  exact Hu.
Qed.

Lemma section_trace_safe h sl p :
  section_chain h p sl → NoDup (section_blocks sl) →
  no_use_after_free (section_trace sl).
Proof.
  intros Hc Hnd.
  pose proof (free_section_run sl (section_depth sl) p (mk_context NULL) h [] Hc Hnd
                (le_n _)) as Hrun.
  apply (preserves_free_section _ _ _ _ _ (safe_start _ _)) in Hrun as [_ Hu].
  exact Hu.
Qed.

(** ** Descending before releasing *)

Lemma precedes_app_l e1 e2 t u : precedes e1 e2 t → precedes e1 e2 (u ++ t).
Proof.
  intros (t1 & t2 & t3 & ->). exists (u ++ t1), t2, t3. by rewrite <- app_assoc.
Qed.

Lemma precedes_app_r e1 e2 t u : precedes e1 e2 t → precedes e1 e2 (t ++ u).
Proof.
  intros (t1 & t2 & t3 & ->). exists t1, t2, (t3 ++ u).
  rewrite <- app_assoc. simpl. by rewrite <- app_assoc.
Qed.

Lemma precedes_ends e1 e2 t : precedes e1 e2 ([e1] ++ t ++ [e2]).
Proof. by exists [], t, []. Qed.

Lemma field_trace_descends fl a :
  a ∈ field_addrs fl → precedes (EvLoad a m_next) (EvFree a) (field_trace fl).
Proof.
  unfold field_addrs.
  induction fl as [| [b r] rest IH]; simpl; [by intros ?%elem_of_nil |].
  rewrite elem_of_cons. intros [-> | Hin].
  - exists [], (field_trace rest ++
                [EvLoad b m_key; EvFree (key r); EvLoad b m_subkey; EvFree (subkey r);
                 EvLoad b m_value; EvFree (value r)]), [].
    simpl. by rewrite <- app_assoc.
  - apply (precedes_app_l _ _ _ [EvLoad b m_next]), precedes_app_r, IH, Hin.
Qed.

Lemma section_trace_descends sl a :
  a ∈ section_addrs sl ++ all_field_addrs sl →
  precedes (EvLoad a m_next) (EvFree a) (section_trace sl).
Proof.
  unfold section_addrs, all_field_addrs.
  induction sl as [| [b r fl] rest IH]; simpl; [by intros ?%elem_of_nil |].
  rewrite elem_of_cons, !elem_of_app.
  intros [-> | [Hin | [Hin | Hin]]].
  - exists [], (section_trace rest ++
                [EvLoad b m_name; EvFree (name r); EvLoad b m_fields] ++ field_trace fl), [].
    simpl. rewrite <- !app_assoc. done.
  - apply (precedes_app_l _ _ _ [EvLoad b m_next]), precedes_app_r, IH.
    rewrite elem_of_app. by left.
  - apply (precedes_app_l _ _ _ [EvLoad b m_next]), precedes_app_l.
    apply (precedes_app_l _ _ _ [EvLoad b m_name; EvFree (name r); EvLoad b m_fields]).
    by apply precedes_app_r, field_trace_descends.
  - apply (precedes_app_l _ _ _ [EvLoad b m_next]), precedes_app_r, IH.
    rewrite elem_of_app. by right.
Qed.

(** ** The context is never written *)

Lemma keeps_ctx_ret {A} (a : A) : keeps_ctx (ret a).
Proof. by intros s a' s' [= _ <-]. Qed.

Lemma keeps_ctx_raise {A} e : keeps_ctx (@raise A e).
Proof. by intros s a s' H. Qed.

Lemma keeps_ctx_bind {A B} (m : M A) (k : A → M B) :
  keeps_ctx m → (∀ a, keeps_ctx (k a)) → keeps_ctx (bind m k).
Proof.
  intros Hm Hk s b s'. unfold bind.
  destruct (m s) as [a s1 |] eqn:E; [| done].
  intros H. rewrite (Hk _ _ _ _ H). by eapply Hm.
Qed.

Lemma keeps_ctx_free p : keeps_ctx (free p).
Proof.
  intros s a s'. unfold free.
  destruct (decide (p = NULL)); [by intros [= _ <-] |].
  destruct (heap s !! p); [by intros [= _ <-] | done].
Qed.

Lemma keeps_ctx_load_section p m sel : keeps_ctx (load_section p m sel).
Proof.
  intros s a s'. unfold load_section.
  destruct (decide (p = NULL)); [done |].
  destruct (heap s !! p) as [[| |] |]; try done. by intros [= _ <-].
Qed.

Lemma keeps_ctx_load_field p m sel : keeps_ctx (load_field p m sel).
Proof.
  intros s a s'. unfold load_field.
  destruct (decide (p = NULL)); [done |].
  destruct (heap s !! p) as [[| |] |]; try done. by intros [= _ <-].
Qed.

Lemma keeps_ctx_free_field d : ∀ p, keeps_ctx (free_field d p).
Proof.
  induction d as [| d IH]; intros p; simpl.
  - apply keeps_ctx_raise.
  - destruct (decide (p = NULL)); [apply keeps_ctx_ret |].
    repeat (apply keeps_ctx_bind; [| intros ?]);
      auto using keeps_ctx_load_field, keeps_ctx_free.
Qed.

Lemma keeps_ctx_free_section d : ∀ p, keeps_ctx (free_section d p).
Proof.
  induction d as [| d IH]; intros p; simpl.
  - apply keeps_ctx_raise.
  - destruct (decide (p = NULL)); [apply keeps_ctx_ret |].
    repeat (apply keeps_ctx_bind; [| intros ?]);
      auto using keeps_ctx_load_section, keeps_ctx_free, keeps_ctx_free_field.
Qed.

(** The null pointer is never among the blocks of a chain. *)
Lemma field_blocks_nonnull h fl : ∀ p,
  field_chain h p fl → NULL ∉ field_blocks fl.
Proof.
  induction fl as [| [a r] rest IH]; intros p; simpl; [by intros _ ?%elem_of_nil |].
  intros (-> & Hp & _ & _ & _ & _ & Hc).
  rewrite !elem_of_app, !elem_of_owned, list_elem_of_singleton.
  intros [Hin | [[E ?] | [[E ?] | [[E ?] | E]]]]; try (symmetry in E; done).
  by apply (IH _ Hc).
Qed.

Lemma section_blocks_nonnull h sl : ∀ p,
  section_chain h p sl → NULL ∉ section_blocks sl.
Proof.
  induction sl as [| n rest IH]; intros p; simpl; [by intros _ ?%elem_of_nil |].
  intros (-> & Hp & _ & _ & Hf & Hc).
  rewrite !elem_of_app, !elem_of_owned, list_elem_of_singleton.
  intros [Hin | [[E ?] | [Hin | E]]]; try (symmetry in E; done).
  - by apply (IH _ Hc).
  - by apply (field_blocks_nonnull _ _ _ Hf).
Qed.

(** ** The iterative walk *)

Lemma field_blocks_iter_perm fl : field_blocks_iter fl ≡ₚ field_blocks fl.
Proof.
  induction fl as [| [a r] rest IH]; simpl; [done |].
  rewrite IH. apply Permutation_app_comm.
Qed.

Lemma section_blocks_iter_perm sl : section_blocks_iter sl ≡ₚ section_blocks sl.
Proof.
  induction sl as [| n rest IH]; simpl; [done |].
  rewrite IH, field_blocks_iter_perm.
  rewrite (Permutation_app_comm _ (section_blocks rest)).
  apply Permutation_app_head.
  rewrite !app_assoc. apply Permutation_app_tail, Permutation_app_comm.
Qed.

Lemma release_fields_iter_run fl : ∀ n p c h t,
  field_chain h p fl → NoDup (field_blocks_iter fl) → (length fl ≤ n)%nat →
  ∃ t',
    release_fields_iter n p (mk_state c h t)
    = Done tt (mk_state c (release_all (field_blocks_iter fl) h) (t ++ t')) ∧
    freed t' = field_blocks_iter fl.
Proof.
  induction fl as [| [a r] rest IH]; intros n p c h t Hc Hnd Hn.
  - simpl in Hc. subst p. exists []. rewrite app_nil_r.
    split; [| done]. by destruct n.
  - destruct Hc as (-> & Hp & Hl & Hk & Hsk & Hv & Hc).
    destruct n as [| n]; [simpl in Hn; lia |].
    cbn [field_blocks_iter] in Hnd |- *.
    apply NoDup_app in Hnd as (Hnd0 & Hdis & Hnd1).
    rewrite !NoDup_app in Hnd0. destruct Hnd0 as (_ & Hd1 & _ & Hd2 & _ & Hd3 & _).
    set (h1 := release_all (owned (key r)) h).
    set (h2 := release_all (owned (subkey r)) h1).
    set (h3 := release_all (owned (value r)) h2).
    assert (Hl1 : h1 !! a = Some (BField r)).
    { unfold h1. rewrite lookup_release_all_notin; [done |].
      by_disjoint Hd1. }
    assert (Hl2 : h2 !! a = Some (BField r)).
    { unfold h2. rewrite lookup_release_all_notin; [done |].
      by_disjoint Hd2. }
    assert (Hl3 : h3 !! a = Some (BField r)).
    { unfold h3. rewrite lookup_release_all_notin; [done |].
      by_disjoint Hd3. }
    assert (Hstep :
      release_fields_iter (S n) a (mk_state c h t)
      = release_fields_iter n (field_next r)
          (mk_state c (delete a h3)
             (t ++ [EvLoad a m_next; EvLoad a m_key; EvFree (key r);
                    EvLoad a m_subkey; EvFree (subkey r);
                    EvLoad a m_value; EvFree (value r); EvFree a]))).
    { cbn [release_fields_iter]. rewrite decide_False by done.
      erewrite bind_Done by (by apply load_field_Done).
      erewrite bind_Done by (by apply load_field_Done).
      erewrite bind_Done by (by apply free_text_Done).
      erewrite bind_Done by (by apply load_field_Done).
      erewrite bind_Done.
      2:{ apply free_text_Done. eapply text_at_agree; [| exact Hsk].
          intros x Hx. apply lookup_release_all_notin.
          by_disjoint Hd1. }
      erewrite bind_Done by (by apply load_field_Done).
      erewrite bind_Done.
      2:{ apply free_text_Done. eapply text_at_agree; [| exact Hv].
          intros x Hx. unfold h2, h1. rewrite !lookup_release_all_notin; [done | |].
          - by_disjoint Hd1.
          - by_disjoint Hd2. }
      erewrite bind_Done by (apply free_block_Done; [done | by eexists]).
      rewrite <- !app_assoc. reflexivity. }
    rewrite Hstep.
    destruct (IH n (field_next r) c (delete a h3)
                (t ++ [EvLoad a m_next; EvLoad a m_key; EvFree (key r);
                       EvLoad a m_subkey; EvFree (subkey r);
                       EvLoad a m_value; EvFree (value r); EvFree a]))
      as (t' & Hrun & Hfreed); [| done | simpl in Hn; lia |].
    { eapply field_chain_agree; [| exact Hc].
      intros x Hx.
      assert (Hx' : x ∈ field_blocks_iter rest) by (by rewrite field_blocks_iter_perm).
      change (delete a h3) with (release_all [a] h3). unfold h3, h2, h1.
      rewrite !lookup_release_all_notin; [done | | | |];
        intros Hin; (apply (Hdis x); [| done]); rewrite !elem_of_app; tauto. }
    exists ([EvLoad a m_next; EvLoad a m_key; EvFree (key r);
             EvLoad a m_subkey; EvFree (subkey r);
             EvLoad a m_value; EvFree (value r); EvFree a] ++ t').
    split.
    + rewrite Hrun. f_equal. f_equal.
      * rewrite !release_all_app. reflexivity.
      * by rewrite <- app_assoc.
    + rewrite freed_app, Hfreed. f_equal.
      rewrite <- (owned_node a Hp). unfold freed, owned. simpl.
      by destruct (decide (key r = NULL)), (decide (subkey r = NULL)),
           (decide (value r = NULL)), (decide (a = NULL)).
Qed.

Lemma release_sections_iter_run sl : ∀ nf n p c h t,
  section_chain h p sl → NoDup (section_blocks_iter sl) →
  Forall (λ x, (length (sn_fields x) ≤ nf)%nat) sl → (length sl ≤ n)%nat →
  ∃ t',
    release_sections_iter nf n p (mk_state c h t)
    = Done tt (mk_state c (release_all (section_blocks_iter sl) h) (t ++ t')) ∧
    freed t' = section_blocks_iter sl.
Proof.
  induction sl as [| [a r fl] rest IH]; intros nf n p c h t Hc Hnd Hnf Hn.
  - simpl in Hc. subst p. exists []. rewrite app_nil_r.
    split; [| done]. by destruct n.
  - destruct Hc as (-> & Hp & Hl & Hnm & Hf & Hc). simpl in Hp, Hl, Hnm, Hf, Hc.
    destruct n as [| n]; [simpl in Hn; lia |].
    apply Forall_cons in Hnf as [Hnf0 Hnf]. simpl in Hnf0.
    cbn [section_blocks_iter sn_addr sn_rec sn_fields] in Hnd |- *.
    apply NoDup_app in Hnd as (Hnd0 & Hdis & Hnd1).
    rewrite !NoDup_app in Hnd0. destruct Hnd0 as (Hndf & Hd1 & _ & Hd2 & _).
    destruct (release_fields_iter_run fl nf (fields r) c h
                (t ++ [EvLoad a m_next; EvLoad a m_fields]) Hf Hndf Hnf0)
      as (tf & Hrunf & Hfreedf).
    set (h1 := release_all (field_blocks_iter fl) h) in *.
    set (h2 := release_all (owned (name r)) h1).
    assert (Hl1 : h1 !! a = Some (BSection r)).
    { unfold h1. rewrite lookup_release_all_notin; [done |].
      intros Hin. apply (Hd1 _ Hin). rewrite elem_of_app, list_elem_of_singleton. tauto. }
    assert (Hl2 : h2 !! a = Some (BSection r)).
    { unfold h2. rewrite lookup_release_all_notin; [done |].
      intros Hin. apply (Hd2 _ Hin). by apply list_elem_of_singleton. }
    assert (Hstep :
      release_sections_iter nf (S n) a (mk_state c h t)
      = release_sections_iter nf n (section_next r)
          (mk_state c (delete a h2)
             (t ++ [EvLoad a m_next; EvLoad a m_fields] ++ tf ++
                   [EvLoad a m_name; EvFree (name r); EvFree a]))).
    { cbn [release_sections_iter]. rewrite decide_False by done.
      erewrite bind_Done by (by apply load_section_Done).
      erewrite bind_Done by (by apply load_section_Done).
      rewrite <- app_assoc. simpl.
      erewrite bind_Done by exact Hrunf.
      erewrite bind_Done by (by apply load_section_Done).
      erewrite bind_Done.
      2:{ apply free_text_Done. eapply text_at_agree; [| exact Hnm].
          intros x Hx. apply lookup_release_all_notin.
          intros Hin. apply (Hd1 _ Hin). rewrite elem_of_app. tauto. }
      erewrite bind_Done by (apply free_block_Done; [done | by eexists]).
      rewrite <- !app_assoc. reflexivity. }
    rewrite Hstep.
    destruct (IH nf n (section_next r) c (delete a h2)
                (t ++ [EvLoad a m_next; EvLoad a m_fields] ++ tf ++
                      [EvLoad a m_name; EvFree (name r); EvFree a]))
      as (t' & Hrun & Hfreed); [| done | done | simpl in Hn; lia |].
    { eapply section_chain_agree; [| exact Hc].
      intros x Hx.
      assert (Hx' : x ∈ section_blocks_iter rest) by (by rewrite section_blocks_iter_perm).
      change (delete a h2) with (release_all [a] h2). unfold h2, h1.
      rewrite !lookup_release_all_notin; [done | | |];
        intros Hin; (apply (Hdis x); [| done]); rewrite !elem_of_app; tauto. }
    exists ([EvLoad a m_next; EvLoad a m_fields] ++ tf ++
            [EvLoad a m_name; EvFree (name r); EvFree a] ++ t').
    split.
    + rewrite Hrun. f_equal. f_equal.
      * rewrite !release_all_app. reflexivity.
      * by rewrite <- !app_assoc.
    + rewrite !freed_app, Hfreed, Hfreedf, <- !app_assoc. 
      change (freed [EvLoad a m_next; EvLoad a m_fields]) with (@nil N).
      rewrite app_nil_l. f_equal.
      rewrite <- (owned_node a Hp). unfold freed, owned. simpl.
      by destruct (decide (name r = NULL)), (decide (a = NULL)).
Qed.

Lemma max_list_Forall_le (l : list nat) (m : nat) :
  (max_list l ≤ m)%nat → Forall (λ x, (x ≤ m)%nat) l.
Proof.
  intros H. apply Forall_forall. intros x Hx.
  apply max_list_elem_of_le in Hx. lia.
Qed.

(** ** Chains of sections without fields *)

Lemma bare_depth sl :
  Forall (λ x, sn_fields x = []) sl → section_depth sl = S (length sl).
Proof.
  induction 1 as [| n rest Hn _ IH]; simpl; [done |].
  rewrite IH, Hn. unfold field_depth. simpl. lia.
Qed.

Lemma bare_chain_length n : length (bare_chain n) = n.
Proof. induction n as [| n IH]; simpl; [done | by rewrite IH]. Qed.

Lemma bare_chain_no_fields n : Forall (λ x, sn_fields x = []) (bare_chain n).
Proof. induction n as [| n IH]; simpl; [done | by constructor]. Qed.

Lemma bare_blocks_bound n x :
  x ∈ section_blocks (bare_chain n) → x ≤ N.of_nat (2 * n).
Proof.
  induction n as [| n IH]; cbn [bare_chain section_blocks sn_addr sn_rec sn_fields name];
    [by intros ?%elem_of_nil |].
  rewrite !elem_of_app, elem_of_owned, list_elem_of_singleton.
  intros [Hin | [[-> _] | [Hin | ->]]].
  - apply IH in Hin. lia.
  - lia.
  - by apply elem_of_nil in Hin.
  - lia.
Qed.

Lemma bare_blocks_nodup n : NoDup (section_blocks (bare_chain n)).
Proof.
  induction n as [| n IH]; cbn [bare_chain section_blocks sn_addr sn_rec sn_fields name];
    [apply NoDup_nil_2 |].
  rewrite owned_node by (unfold NULL; lia).
  apply NoDup_app. split; [done |]. split.
  - intros x Hx%bare_blocks_bound.
    cbn [field_blocks app]. rewrite !elem_of_cons, elem_of_nil. lia.
  - cbn [field_blocks app]. apply NoDup_cons. split; [| apply NoDup_singleton].
    rewrite list_elem_of_singleton. lia.
Qed.

Lemma bare_heap_chain n :
  section_chain (bare_heap n) (chain_head (bare_chain n)) (bare_chain n).
Proof.
  induction n as [| n IH]; [done |].
  cbn [bare_chain bare_heap section_chain chain_head sn_addr sn_rec sn_fields
       name fields section_next field_chain].
  split; [done |]. split; [unfold NULL; lia |]. split; [apply lookup_insert_eq |].
  split; [| split; [done |]].
  - right. exists "s". rewrite lookup_insert_ne by lia. apply lookup_insert_eq.
  - eapply section_chain_agree; [| exact IH].
    intros x Hx%bare_blocks_bound. rewrite !lookup_insert_ne by lia. done.
Qed.

Lemma bare_well_formed n : well_formed (bare_state n) (bare_chain n).
Proof. split; [apply bare_heap_chain | apply bare_blocks_nodup]. Qed.

(** ** The machine on concrete heaps *)

Example os_release :
  parse_context_free 4 os_state = Done tt os_released.
Proof. vm_compute. reflexivity. Qed.

Example os_release_events :
  trace os_released
  = [EvLoad 1 m_next; EvLoad 1 m_name; EvFree 2; EvLoad 1 m_fields;
     EvLoad 3 m_next; EvLoad 6 m_next;
     EvLoad 6 m_key; EvFree 7; EvLoad 6 m_subkey; EvFree 8;
     EvLoad 6 m_value; EvFree 9; EvFree 6;
     EvLoad 3 m_key; EvFree 4; EvLoad 3 m_subkey; EvFree NULL;
     EvLoad 3 m_value; EvFree 5; EvFree 3;
     EvFree 1].
Proof. reflexivity. Qed.

Example os_release_short_stack :
  parse_context_free 3 os_state = Crash StackOverflow.
Proof. vm_compute. reflexivity. Qed.

Example os_walk :
  release_iter 2 1 os_state
  = Done tt (mk_state (mk_context 1) ∅
      [EvLoad 1 m_next; EvLoad 1 m_fields;
       EvLoad 3 m_next; EvLoad 3 m_key; EvFree 4; EvLoad 3 m_subkey; EvFree NULL;
       EvLoad 3 m_value; EvFree 5; EvFree 3;
       EvLoad 6 m_next; EvLoad 6 m_key; EvFree 7; EvLoad 6 m_subkey; EvFree 8;
       EvLoad 6 m_value; EvFree 9; EvFree 6;
       EvLoad 1 m_name; EvFree 2; EvFree 1]).
Proof. vm_compute. reflexivity. Qed.

(** A second release of the same context faults on its first read. *)
Example os_release_twice :
  (parse_context_free 4 ;;; parse_context_free 4) os_state = Crash (BadLoad 1 m_next).
Proof. vm_compute. reflexivity. Qed.

(** A text owned by two nodes is released twice: the second [free]
    faults. *)
Example shared_text_double_free :
  free_field 3 3 (mk_state (mk_context NULL) shared_heap []) = Crash (BadFree 4).
Proof. vm_compute. reflexivity. Qed.

(** On a chain with a cycle the recursion never meets the terminator. *)
Example cyclic_chain_overflows :
  free_section 200 1 (mk_state (mk_context 1) cyclic_heap []) = Crash StackOverflow.
Proof. vm_compute. reflexivity. Qed.

(** ** The concrete contexts are well formed *)

Lemma os_fields_chain : field_chain os_heap 3 os_fields.
Proof.
  repeat split; try done; try (by left); right; eexists; reflexivity.
Qed.

Lemma os_fields_nodup : NoDup (field_blocks os_fields).
Proof. compute_done. Qed.

Lemma os_well_formed : well_formed os_state os_chain.
Proof.
  split.
  - repeat split; try done; try (by left); right; eexists; reflexivity.
  - compute_done.
Qed.

Lemma grid_well_formed : well_formed grid_state grid_chain.
Proof.
  split.
  - repeat split; try done; try (by left); right; eexists; reflexivity.
  - compute_done.
Qed.

(** ** The release protocol *)

(** C1: releasing a well-formed context that owns [n] sections with [m]
    fields each succeeds and releases exactly the blocks the chain owns.
    No block is released twice, [n] of the released blocks are section
    nodes and [n * m] are field nodes, every section node and every
    field node of the chain is among them, and none of them is left in
    the heap. *)
Theorem C1_release_frees_every_node_once
    (s : state) (sl : list snode) (n m d : nat) :
  well_formed s sl →
  length sl = n →
  Forall (λ x, length (sn_fields x) = m) sl →
  (section_depth sl ≤ d)%nat →
  ∃ s' t,
    parse_context_free d s = Done tt s' ∧
    trace s' = trace s ++ t ∧
    freed t = section_blocks sl ∧
    NoDup (freed t) ∧
    length (filter (is_section_block (heap s)) (freed t)) = n ∧
    length (filter (is_field_block (heap s)) (freed t)) = (n * m)%nat ∧
    (∀ a, a ∈ section_addrs sl ++ all_field_addrs sl → a ∈ freed t) ∧
    (∀ a, a ∈ freed t → heap s' !! a = None).
Proof.
  destruct s as [c h t0]. intros [Hc Hnd] Hn Hm Hd. simpl in Hc.
  exists (mk_state c (release_all (section_blocks sl) h) (t0 ++ section_trace sl)),
         (section_trace sl).
  pose proof (freed_section_trace _ _ _ Hc) as Hfreed.
  destruct (section_blocks_kind _ _ _ Hc) as [Hks Hkf].
  rewrite Hfreed. simpl.
  split; [by apply free_section_run |].
  split; [done |]. split; [done |]. split; [done |].
  split; [| split; [| split]].
  - rewrite Hks, length_reverse. unfold section_addrs. by rewrite length_fmap.
  - rewrite Hkf. rewrite (length_concat_uniform _ m).
    + by rewrite length_reverse, length_fmap, Hn.
    + apply Forall_reverse, Forall_fmap. eapply Forall_impl; [exact Hm |].
      intros x Hx. simpl. rewrite length_reverse. unfold field_addrs.
      by rewrite length_fmap.
  - intros a [Ha | Ha]%elem_of_app.
    + by apply section_addrs_blocks.
    + by apply all_field_addrs_blocks.
  - intros a Ha. rewrite lookup_release_all. by rewrite decide_True.
Qed.

Lemma C1_witness :
  ∃ s' t,
    parse_context_free 5 grid_state = Done tt s' ∧
    trace s' = trace grid_state ++ t ∧
    freed t = section_blocks grid_chain ∧
    NoDup (freed t) ∧
    length (filter (is_section_block (heap grid_state)) (freed t)) = 2%nat ∧
    length (filter (is_field_block (heap grid_state)) (freed t)) = (2 * 2)%nat ∧
    (∀ a, a ∈ section_addrs grid_chain ++ all_field_addrs grid_chain → a ∈ freed t) ∧
    (∀ a, a ∈ freed t → heap s' !! a = None).
Proof.
  apply (C1_release_frees_every_node_once grid_state grid_chain 2 2 5).
  - exact grid_well_formed.
  - reflexivity.
  - repeat constructor.
  - simpl. lia.
Defined.

(** C2, as the spec words it, fails on the scenario of the spec: the
    name of the section (block 2) is released before the field chain
    (blocks 7, 8, 9, 6, 4, 5, 3), not after it. *)
Lemma C2_counterexample :
  ∃ s',
    parse_context_free 4 os_state = Done tt s' ∧
    freed (trace s') = [2; 7; 8; 9; 6; 4; 5; 3; 1] ∧
    spec_section_order os_chain = [7; 8; 9; 6; 4; 5; 3; 2; 1] ∧
    freed (trace s') ≠ spec_section_order os_chain.
Proof.
  eexists. split; [| split; [| split]].
  - apply (free_section_run os_chain); [apply os_well_formed.. | simpl; lia].
  - reflexivity.
  - reflexivity.
  - simpl. discriminate.
Qed.

(** C2 (amended): releasing a non-empty section chain headed by the node
    at [a] reads [a->next] and releases the rest of the chain, then
    reads and releases the name of the section, then reads [a->fields]
    and releases the field chain of the section, then releases the node
    itself. *)
Theorem C2_section_release_order
    (c : parse_context) (h : gmap N block) (t : list event)
    (a : addr) (n : snode) (rest : list snode) (d : nat) :
  section_chain h a (n :: rest) →
  NoDup (section_blocks (n :: rest)) →
  (section_depth (n :: rest) ≤ S d)%nat →
  ∃ h1 t_next h2 t_fields,
    free_section d (section_next (sn_rec n)) (mk_state c h []) = Done tt (mk_state c h1 t_next) ∧
    free_field d (fields (sn_rec n)) (mk_state c (release_all (owned (name (sn_rec n))) h1) [])
    = Done tt (mk_state c h2 t_fields) ∧
    free_section (S d) a (mk_state c h t)
    = Done tt (mk_state c (delete a h2)
                 (t ++ [EvLoad a m_next] ++ t_next ++
                  [EvLoad a m_name; EvFree (name (sn_rec n)); EvLoad a m_fields] ++
                  t_fields ++ [EvFree a])).
Proof.
  intros Hc Hnd Hd.
  pose proof (free_section_run _ _ _ c h t Hc Hnd Hd) as Hrun.
  destruct n as [b r fl]. destruct Hc as (-> & Hp & Hl & Hn & Hf & Hc).
  simpl in Hp, Hl, Hn, Hf, Hc, Hd.
  cbn [section_blocks sn_rec sn_addr sn_fields] in Hnd, Hrun |- *.
  rewrite !NoDup_app in Hnd.
  destruct Hnd as (Hnd0 & Hd0 & _ & Hd1 & Hndf & _ & _).
  exists (release_all (section_blocks rest) h), (section_trace rest),
         (release_all (field_blocks fl)
            (release_all (owned (name r)) (release_all (section_blocks rest) h))),
         (field_trace fl).
  split; [| split].
  - apply (free_section_run rest); [done | done | lia].
  - apply (free_field_run fl); [| done | unfold field_depth in *; lia].
    eapply field_chain_agree; [| exact Hf].
    intros x Hx. rewrite !lookup_release_all_notin; [done | |].
    + by_disjoint Hd0.
    + by_disjoint Hd1.
  - rewrite Hrun. f_equal. f_equal.
    by rewrite !release_all_app.
Qed.

Lemma C2_witness :
  ∃ h1 t_next h2 t_fields,
    free_section 3 NULL (mk_state (mk_context 1) os_heap []) = Done tt (mk_state (mk_context 1) h1 t_next) ∧
    free_field 3 3 (mk_state (mk_context 1) (release_all (owned 2) h1) [])
    = Done tt (mk_state (mk_context 1) h2 t_fields) ∧
    free_section 4 1 (mk_state (mk_context 1) os_heap [])
    = Done tt (mk_state (mk_context 1) (delete 1 h2)
                 ([] ++ [EvLoad 1 m_next] ++ t_next ++
                  [EvLoad 1 m_name; EvFree 2; EvLoad 1 m_fields] ++
                  t_fields ++ [EvFree 1])).
Proof.
  apply (C2_section_release_order (mk_context 1) os_heap [] 1
           (mk_snode 1 os_section os_fields) [] 3).
  - apply os_well_formed.
  - apply os_well_formed.
  - simpl. lia.
Defined.

(** C3: releasing a non-empty field chain headed by the node at [a]
    reads [a->next] and releases the rest of the chain, then reads and
    releases the key, the subkey and the value of the node, in this
    order, then releases the node itself; on the terminator the release
    does nothing. *)
Theorem C3_field_release_order
    (c : parse_context) (h : gmap N block) (t : list event)
    (p : addr) (fl : list fnode) (d : nat) :
  field_chain h p fl →
  NoDup (field_blocks fl) →
  (field_depth fl ≤ S d)%nat →
  match fl with
  | [] => p = NULL ∧ free_field (S d) p (mk_state c h t) = Done tt (mk_state c h t)
  | (a, r) :: rest =>
      ∃ h1 t_next,
        free_field d (field_next r) (mk_state c h []) = Done tt (mk_state c h1 t_next) ∧
        free_field (S d) p (mk_state c h t)
        = Done tt (mk_state c
                     (delete a (release_all (owned (key r) ++ owned (subkey r) ++ owned (value r)) h1))
                     (t ++ [EvLoad a m_next] ++ t_next ++
                      [EvLoad a m_key; EvFree (key r);
                       EvLoad a m_subkey; EvFree (subkey r);
                       EvLoad a m_value; EvFree (value r);
                       EvFree a]))
  end.
Proof.
  intros Hc Hnd Hd.
  pose proof (free_field_run _ _ _ c h t Hc Hnd Hd) as Hrun.
  destruct fl as [| [a r] rest].
  - simpl in Hc, Hrun. subst p. split; [done |]. by rewrite app_nil_r in Hrun.
  - destruct Hc as (-> & Hp & Hl & _ & _ & _ & Hc).
    cbn [field_blocks] in Hnd, Hrun. rewrite NoDup_app in Hnd.
    destruct Hnd as (Hnd0 & _ & _).
    exists (release_all (field_blocks rest) h), (field_trace rest). split.
    + apply (free_field_run rest); [done | done | unfold field_depth in *; simpl in Hd; lia].
    + rewrite Hrun. f_equal. f_equal.
      rewrite !release_all_app. reflexivity.
Qed.

Lemma C3_witness :
  ∃ h1 t_next,
    free_field 2 6 (mk_state (mk_context 1) os_heap []) = Done tt (mk_state (mk_context 1) h1 t_next) ∧
    free_field 3 3 (mk_state (mk_context 1) os_heap [])
    = Done tt (mk_state (mk_context 1)
                 (delete 3 (release_all (owned 4 ++ owned NULL ++ owned 5) h1))
                 ([] ++ [EvLoad 3 m_next] ++ t_next ++
                  [EvLoad 3 m_key; EvFree 4;
                   EvLoad 3 m_subkey; EvFree NULL;
                   EvLoad 3 m_value; EvFree 5;
                   EvFree 3])).
Proof.
  apply (C3_field_release_order (mk_context 1) os_heap [] 3 os_fields 2).
  - exact os_fields_chain.
  - exact os_fields_nodup.
  - vm_compute. lia.
Defined.

(** C4: during the release of a well-formed chain, of sections or of
    fields, no member of a node (its [next] link in particular) is read
    once the node is released, and for every node of the chain the read
    of its [next] link comes before its release. *)
Theorem C4_descend_then_free
    (c : parse_context) (h : gmap N block) (t : list event) (ch : chain) (d : nat) :
  chain_at h ch →
  (chain_depth ch ≤ d)%nat →
  ∃ h' t',
    release d ch (mk_state c h t) = Done tt (mk_state c h' (t ++ t')) ∧
    (∀ t1 t2 p m, t' = t1 ++ EvFree p :: t2 → EvLoad p m ∉ t2) ∧
    (∀ a, a ∈ chain_nodes ch → precedes (EvLoad a m_next) (EvFree a) t').
Proof.
  destruct ch as [p sl | p fl]; simpl; intros [Hc Hnd] Hd.
  - exists (release_all (section_blocks sl) h), (section_trace sl).
    split; [by apply free_section_run |]. split.
    + by apply (section_trace_safe h sl p).
    + apply section_trace_descends.
  - exists (release_all (field_blocks fl) h), (field_trace fl).
    split; [by apply free_field_run |]. split.
    + by apply (field_trace_safe h fl p).
    + apply field_trace_descends.
Qed.

Lemma C4_witness :
  ∃ h' t',
    release 4 (Sections 1 os_chain) (mk_state (mk_context 1) os_heap [])
    = Done tt (mk_state (mk_context 1) h' ([] ++ t')) ∧
    (∀ t1 t2 p m, t' = t1 ++ EvFree p :: t2 → EvLoad p m ∉ t2) ∧
    (∀ a, a ∈ chain_nodes (Sections 1 os_chain) →
          precedes (EvLoad a m_next) (EvFree a) t').
Proof.
  apply (C4_descend_then_free (mk_context 1) os_heap [] (Sections 1 os_chain) 4).
  - exact os_well_formed.
  - vm_compute. lia.
Defined.

(** C5, as the spec words it, fails: the stack the release needs is not
    independent of the length of the section chain.  A stack with room
    for 11 nested activations releases 10 sections but overflows on
    1000; with room for 1000 it still overflows on 1000 sections; and no
    bound serves every chain length. *)
Lemma C5_counterexample :
  (∃ s', parse_context_free 11 (bare_state 10) = Done tt s') ∧
  parse_context_free 11 (bare_state 1000) = Crash StackOverflow ∧
  parse_context_free 1000 (bare_state 1000) = Crash StackOverflow ∧
  ¬ (∃ D, ∀ n, ∃ s', parse_context_free D (bare_state n) = Done tt s').
Proof.
  assert (Hover : ∀ n d, (d ≤ n)%nat →
                         parse_context_free d (bare_state n) = Crash StackOverflow).
  { intros n d Hd. apply (free_section_overflow (bare_chain n)).
    - apply bare_heap_chain.
    - apply bare_blocks_nodup.
    - rewrite (bare_depth _ (bare_chain_no_fields n)), bare_chain_length. lia. }
  split; [| split; [| split]].
  - eexists. apply (free_section_run (bare_chain 10)).
    + apply bare_heap_chain.
    + apply bare_blocks_nodup.
    + rewrite (bare_depth _ (bare_chain_no_fields 10)), bare_chain_length. lia.
  - apply Hover. lia.
  - apply Hover. lia.
  - intros [D HD]. destruct (HD D) as [s' Hs']. by rewrite Hover in Hs'.
Qed.

(** C5 (amended): releasing a well-formed context of [n] chained
    sections without fields nests [n + 1] activations of [free_section].
    It completes, with every block of the chain released, when the stack
    has room for more than [n] nested activations, and it overflows the
    stack otherwise: the stack used grows with the length of the chain
    (1001 activations for 1000 sections). *)
Theorem C5_release_depth_grows_with_chain (s : state) (sl : list snode) (d : nat) :
  well_formed s sl →
  Forall (λ x, sn_fields x = []) sl →
  ((length sl < d)%nat →
   ∃ s', parse_context_free d s = Done tt s' ∧
         heap s' = release_all (section_blocks sl) (heap s)) ∧
  ((d ≤ length sl)%nat → parse_context_free d s = Crash StackOverflow).
Proof.
  destruct s as [c h t]. intros [Hc Hnd] Hbare. simpl in Hc.
  pose proof (bare_depth _ Hbare) as Hdepth.
  unfold parse_context_free. simpl. split; intros Hd.
  - eexists. split; [apply (free_section_run sl); [done | done | lia] | done].
  - apply (free_section_overflow sl); [done | done | lia].
Qed.

Lemma C5_witness :
  (∃ s', parse_context_free 1001 (bare_state 1000) = Done tt s' ∧
         heap s' = release_all (section_blocks (bare_chain 1000)) (heap (bare_state 1000))) ∧
  parse_context_free 1000 (bare_state 1000) = Crash StackOverflow.
Proof.
  split.
  - apply (C5_release_depth_grows_with_chain (bare_state 1000) (bare_chain 1000) 1001).
    + apply bare_well_formed.
    + apply bare_chain_no_fields.
    + rewrite bare_chain_length. lia.
  - apply (C5_release_depth_grows_with_chain (bare_state 1000) (bare_chain 1000) 1000).
    + apply bare_well_formed.
    + apply bare_chain_no_fields.
    + rewrite bare_chain_length. lia.
Defined.

(** C6: initialization succeeds on every context, whatever it held, and
    leaves it in the empty state: the section chain is the terminator,
    the context owns no section, the heap is as it was (nothing is
    allocated, nothing released) and no memory event happened. *)
Theorem C6_init_gives_empty_context (s : state) :
  ∃ s',
    parse_context_init s = Done tt s' ∧
    parsed_index (ctx s') = NULL ∧
    well_formed s' [] ∧
    heap s' = heap s ∧
    trace s' = trace s.
Proof.
  eexists. split; [reflexivity |]. simpl.
  repeat split; try done. apply NoDup_nil_2.
Qed.

(** C7: releasing a context right after its initialization, with no
    section appended, returns at once: no event happens, so nothing is
    deallocated, and the state is left as initialization made it. *)
Theorem C7_release_of_empty_context (s : state) (d : nat) :
  (0 < d)%nat →
  ∃ s0,
    parse_context_init s = Done tt s0 ∧
    parse_context_free d s0 = Done tt s0 ∧
    (parse_context_init ;;; parse_context_free d) s = Done tt s0 ∧
    trace s0 = trace s ∧
    freed (trace s0) = freed (trace s) ∧
    heap s0 = heap s.
Proof.
  intros Hd. destruct d as [| d]; [lia |].
  eexists. split; [reflexivity |]. repeat split.
Qed.

Lemma C7_witness :
  ∃ s0,
    parse_context_init os_state = Done tt s0 ∧
    parse_context_free 1 s0 = Done tt s0 ∧
    (parse_context_init ;;; parse_context_free 1) os_state = Done tt s0 ∧
    trace s0 = trace os_state ∧
    freed (trace s0) = freed (trace os_state) ∧
    heap s0 = heap os_state.
Proof. apply (C7_release_of_empty_context os_state 1). lia. Defined.

(** C8: on a well-formed chain, of sections or of fields, the recursive
    teardown of the source and the iterative forward walk both succeed,
    leave the same heap, and release the same blocks: the nodes and the
    owned texts of the chain, each once (the two orders differ). *)
Theorem C8_recursive_and_iterative_agree
    (c : parse_context) (h : gmap N block) (t : list event)
    (ch : chain) (d nf n : nat) :
  chain_at h ch →
  (chain_depth ch ≤ d)%nat →
  (chain_length ch ≤ n)%nat →
  (chain_width ch ≤ nf)%nat →
  ∃ h' t_rec t_walk,
    release d ch (mk_state c h t) = Done tt (mk_state c h' (t ++ t_rec)) ∧
    release_walk nf n ch (mk_state c h t) = Done tt (mk_state c h' (t ++ t_walk)) ∧
    freed t_rec ≡ₚ freed t_walk ∧
    freed t_rec = chain_blocks ch ∧
    NoDup (freed t_rec).
Proof.
  destruct ch as [p sl | p fl]; simpl; intros [Hc Hnd] Hd Hn Hnf.
  - destruct (release_sections_iter_run sl nf n p c h t Hc) as (tw & Hw & Hfw);
      [by rewrite section_blocks_iter_perm | | done |].
    { apply max_list_Forall_le in Hnf. by apply Forall_fmap in Hnf. }
    exists (release_all (section_blocks sl) h), (section_trace sl), tw.
    rewrite (freed_section_trace _ _ _ Hc), Hfw.
    split; [by apply free_section_run |]. split; [| split; [| done]].
    + rewrite Hw. f_equal. f_equal. apply release_all_perm.
      intros x. by rewrite section_blocks_iter_perm.
    + by rewrite section_blocks_iter_perm.
  - destruct (release_fields_iter_run fl n p c h t Hc) as (tw & Hw & Hfw);
      [by rewrite field_blocks_iter_perm | done |].
    exists (release_all (field_blocks fl) h), (field_trace fl), tw.
    rewrite (freed_field_trace _ _ _ Hc), Hfw.
    split; [by apply free_field_run |]. split; [| split; [| done]].
    + rewrite Hw. f_equal. f_equal. apply release_all_perm.
      intros x. by rewrite field_blocks_iter_perm.
    + by rewrite field_blocks_iter_perm.
Qed.

Lemma C8_witness :
  ∃ h' t_rec t_walk,
    release 5 (Sections 1 grid_chain) (mk_state (mk_context 1) grid_heap [])
    = Done tt (mk_state (mk_context 1) h' ([] ++ t_rec)) ∧
    release_walk 2 2 (Sections 1 grid_chain) (mk_state (mk_context 1) grid_heap [])
    = Done tt (mk_state (mk_context 1) h' ([] ++ t_walk)) ∧
    freed t_rec ≡ₚ freed t_walk ∧
    freed t_rec = chain_blocks (Sections 1 grid_chain) ∧
    NoDup (freed t_rec).
Proof.
  apply (C8_recursive_and_iterative_agree (mk_context 1) grid_heap []
           (Sections 1 grid_chain) 5 2 2).
  - exact grid_well_formed.
  - vm_compute. lia.
  - vm_compute. lia.
  - vm_compute. lia.
Defined.

(** C9: the release entry point never writes the context: after a
    release that returned, the context is what it was, [parsed_index]
    included.  So the release of a well-formed context that owns a
    non-empty chain returns with [parsed_index] still holding the
    address of the first section, which is not null and is no longer in
    the heap: the context is not back in the empty state. *)
Theorem C9_release_keeps_parsed_index (s : state) (sl : list snode) (d : nat) :
  (∀ s', parse_context_free d s = Done tt s' → ctx s' = ctx s) ∧
  (well_formed s sl → sl ≠ [] → (section_depth sl ≤ d)%nat →
   ∃ s',
     parse_context_free d s = Done tt s' ∧
     parsed_index (ctx s') = parsed_index (ctx s) ∧
     parsed_index (ctx s') = chain_head sl ∧
     parsed_index (ctx s') ≠ NULL ∧
     heap s' !! parsed_index (ctx s') = None ∧
     ¬ well_formed s' []).
Proof.
  split.
  - intros s' Hrun. eapply (keeps_ctx_free_section d). exact Hrun.
  - destruct s as [c h t]. intros [Hc Hnd] Hne Hd. simpl in Hc.
    eexists. split; [by apply (free_section_run sl) |]. simpl.
    destruct sl as [| n rest]; [done |].
    destruct Hc as (Hhead & Hp & _). rewrite Hhead in Hp |- *.
    repeat split; try done.
    + rewrite lookup_release_all, decide_True; [done |].
      apply (section_addrs_blocks (n :: rest)). unfold section_addrs. simpl. by left.
    + intros [Hempty _]. simpl in Hempty. by rewrite Hhead in Hempty.
Qed.

Lemma C9_witness :
  (∀ s', parse_context_free 4 os_state = Done tt s' → ctx s' = ctx os_state) ∧
  ∃ s',
    parse_context_free 4 os_state = Done tt s' ∧
    parsed_index (ctx s') = parsed_index (ctx os_state) ∧
    parsed_index (ctx s') = chain_head os_chain ∧
    parsed_index (ctx s') ≠ NULL ∧
    heap s' !! parsed_index (ctx s') = None ∧
    ¬ well_formed s' [].
Proof.
  split.
  - apply (C9_release_keeps_parsed_index os_state os_chain 4).
  - apply (C9_release_keeps_parsed_index os_state os_chain 4).
    + exact os_well_formed.
    + discriminate.
    + vm_compute. lia.
Defined.

(** C10: [free] called on an absent (null) text returns without a fault
    and leaves the heap alone.  So the release of a well-formed field
    chain whose first node has no subkey succeeds; it still makes the
    call [free (NULL)], and the blocks it releases for that node are the
    key and the value that are present and the node itself. *)
Theorem C10_absent_subkey_is_safe
    (c : parse_context) (h : gmap N block) (t : list event)
    (a : addr) (r : field) (rest : list fnode) (d : nat) :
  field_chain h a ((a, r) :: rest) →
  NoDup (field_blocks ((a, r) :: rest)) →
  (field_depth ((a, r) :: rest) ≤ d)%nat →
  subkey r = NULL →
  (∀ s, free (subkey r) s = Done tt (mk_state (ctx s) (heap s) (trace s ++ [EvFree NULL]))) ∧
  ∃ t',
    free_field d a (mk_state c h t)
    = Done tt (mk_state c
                 (release_all (field_blocks rest ++ owned (key r) ++ owned (value r) ++ [a]) h)
                 (t ++ t')) ∧
    EvFree NULL ∈ t' ∧
    freed t' = field_blocks rest ++ owned (key r) ++ owned (value r) ++ [a] ∧
    NULL ∉ freed t'.
Proof.
  intros Hc Hnd Hd Hsk. split.
  - intros s. by rewrite Hsk.
  - exists (field_trace ((a, r) :: rest)).
    pose proof (freed_field_trace _ _ _ Hc) as Hfreed.
    pose proof (field_blocks_nonnull _ _ _ Hc) as Hnull.
    rewrite (free_field_run _ _ _ c h t Hc Hnd Hd), Hfreed.
    cbn [field_blocks field_trace] in Hnull |- *. rewrite Hsk in Hnull |- *.
    change (owned NULL) with (@nil N) in Hnull |- *. rewrite app_nil_l in Hnull |- *.
    split; [done |]. split; [| done].
    rewrite !elem_of_app, !elem_of_cons. tauto.
Qed.

Lemma C10_witness :
  (∀ s, free (subkey os_field1) s
        = Done tt (mk_state (ctx s) (heap s) (trace s ++ [EvFree NULL]))) ∧
  ∃ t',
    free_field 3 3 (mk_state (mk_context 1) os_heap [])
    = Done tt (mk_state (mk_context 1)
                 (release_all (field_blocks [(6, os_field2)] ++ owned (key os_field1) ++
                               owned (value os_field1) ++ [3]) os_heap)
                 ([] ++ t')) ∧
    EvFree NULL ∈ t' ∧
    freed t' = field_blocks [(6, os_field2)] ++ owned (key os_field1) ++
               owned (value os_field1) ++ [3] ∧
    NULL ∉ freed t'.
Proof.
  apply (C10_absent_subkey_is_safe (mk_context 1) os_heap [] 3 os_field1 [(6, os_field2)] 3).
  - exact os_fields_chain.
  - exact os_fields_nodup.
  - vm_compute. lia.
  - reflexivity.
Defined.

(** ** What a returning run tells about the heap *)

Lemma bind_Done_inv {A B} (m : M A) (k : A → M B) s b s' :
  bind m k s = Done b s' → ∃ a s1, m s = Done a s1 ∧ k a s1 = Done b s'.
Proof.
  unfold bind. destruct (m s) as [a s1 |] eqn:E; [| done]. intros H. by exists a, s1.
Qed.

Lemma load_field_Done_inv p m sel c h t v s1 :
  load_field p m sel (mk_state c h t) = Done v s1 →
  ∃ r, h !! p = Some (BField r) ∧ v = sel r ∧ s1 = mk_state c h (t ++ [EvLoad p m]).
Proof.
  unfold load_field. simpl. destruct (decide (p = NULL)); [done |].
  destruct (h !! p) as [[| r |] |]; try done. intros [= <- <-]. by exists r.
Qed.

Lemma load_section_Done_inv p m sel c h t v s1 :
  load_section p m sel (mk_state c h t) = Done v s1 →
  ∃ r, h !! p = Some (BSection r) ∧ v = sel r ∧ s1 = mk_state c h (t ++ [EvLoad p m]).
Proof.
  unfold load_section. simpl. destruct (decide (p = NULL)); [done |].
  destruct (h !! p) as [[r | |] |]; try done. intros [= <- <-]. by exists r.
Qed.

Lemma free_Done_inv p c h t u s1 :
  free p (mk_state c h t) = Done u s1 →
  s1 = mk_state c (release_all (owned p) h) (t ++ [EvFree p]) ∧
  ∀ x, x ∈ owned p → is_Some (h !! x).
Proof.
  unfold free, owned. simpl. destruct (decide (p = NULL)).
  - intros [= _ <-]. split; [done |]. by intros x ?%elem_of_nil.
  - destruct (h !! p) as [b |] eqn:E; [| done]. intros [= _ <-].
    split; [done |]. intros x ->%list_elem_of_singleton. by rewrite E.
Qed.

Lemma release_all_subseteq l (h : gmap N block) : release_all l h ⊆ h.
Proof.
  apply map_subseteq_spec. intros x b. rewrite lookup_release_all.
  by destruct (decide (x ∈ l)).
Qed.

Lemma lookup_release_all_is_Some l (h : gmap N block) x :
  is_Some (release_all l h !! x) → (x ∉ l) ∧ is_Some (h !! x).
Proof.
  rewrite lookup_release_all. destruct (decide (x ∈ l)); [by intros [? ?] | done].
Qed.

(** A field chain is in [h]; the teardown runs in a heap [h'] that holds
    no more than [h], and returns.  Then the blocks of the chain were
    all in [h'], no block is owned twice, the stack sufficed, and the
    final state is the one of the ordered release. *)
Lemma free_field_Done_inv fl : ∀ d p c h h' t s',
  field_chain h p fl → h' ⊆ h →
  free_field d p (mk_state c h' t) = Done tt s' →
  NoDup (field_blocks fl) ∧
  (∀ x, x ∈ field_blocks fl → is_Some (h' !! x)) ∧
  (field_depth fl ≤ d)%nat ∧
  s' = mk_state c (release_all (field_blocks fl) h') (t ++ field_trace fl).
Proof.
  unfold field_depth.
  induction fl as [| [a r] rest IH]; intros d p c h h' t s' Hc Hsub Hrun;
    (destruct d as [| d]; [done |]); simpl in Hc; cbn [free_field] in Hrun.
  - subst p. rewrite decide_True in Hrun by done. injection Hrun as <-.
    simpl. rewrite app_nil_r. repeat split; try done; try lia.
    + apply NoDup_nil_2.
    + by intros x ?%elem_of_nil.
  - destruct Hc as (-> & Hp & Hl & Hk & Hsk & Hv & Hc).
    rewrite decide_False in Hrun by done.
    assert (Hback : ∀ (g : gmap N block) r', g ⊆ h → g !! a = Some (BField r') → r' = r).
    { intros g r' Hg Hr'. eapply lookup_weaken in Hr'; [| exact Hg]. congruence. }
    apply bind_Done_inv in Hrun as (v0 & s0 & E0 & Hrun).
    apply load_field_Done_inv in E0 as (r0 & Hr0 & -> & ->).
    apply (Hback _ _ Hsub) in Hr0 as ->.
    apply bind_Done_inv in Hrun as ([] & s1 & E1 & Hrun).
    apply (IH _ _ _ h) in E1 as (Hnd & Hall & Hd & ->); [| done | done].
    set (h1 := release_all (field_blocks rest) h') in *.
    assert (Hsub1 : h1 ⊆ h) by (etrans; [apply release_all_subseteq | done]).
    apply bind_Done_inv in Hrun as (v1 & s2 & E2 & Hrun).
    apply load_field_Done_inv in E2 as (r1 & Hr1 & -> & ->).
    pose proof (lookup_release_all_is_Some _ _ _ (mk_is_Some _ _ Hr1)) as [Ha1 _].
    apply (Hback _ _ Hsub1) in Hr1 as ->.
    apply bind_Done_inv in Hrun as ([] & s3 & E3 & Hrun).
    apply free_Done_inv in E3 as (-> & Hk1).
    set (h2 := release_all (owned (key r)) h1) in *.
    assert (Hsub2 : h2 ⊆ h) by (etrans; [apply release_all_subseteq | done]).
    apply bind_Done_inv in Hrun as (v2 & s4 & E4 & Hrun).
    apply load_field_Done_inv in E4 as (r2 & Hr2 & -> & ->).
    pose proof (lookup_release_all_is_Some _ _ _ (mk_is_Some _ _ Hr2)) as [Ha2 _].
    apply (Hback _ _ Hsub2) in Hr2 as ->.
    apply bind_Done_inv in Hrun as ([] & s5 & E5 & Hrun).
    apply free_Done_inv in E5 as (-> & Hk2).
    set (h3 := release_all (owned (subkey r)) h2) in *.
    assert (Hsub3 : h3 ⊆ h) by (etrans; [apply release_all_subseteq | done]).
    apply bind_Done_inv in Hrun as (v3 & s6 & E6 & Hrun).
    apply load_field_Done_inv in E6 as (r3 & Hr3 & -> & ->).
    pose proof (lookup_release_all_is_Some _ _ _ (mk_is_Some _ _ Hr3)) as [Ha3 _].
    apply (Hback _ _ Hsub3) in Hr3 as ->.
    apply bind_Done_inv in Hrun as ([] & s7 & E7 & Hrun).
    apply free_Done_inv in E7 as (-> & Hk3).
    set (h4 := release_all (owned (value r)) h3) in *.
    apply free_Done_inv in Hrun as (-> & Hk4).
    rewrite owned_node in Hk4 by done.
    (* where each block was when it was released *)
    assert (K1 : ∀ x, x ∈ owned (key r) → (x ∉ field_blocks rest) ∧ is_Some (h' !! x)).
    { intros x Hx. by apply lookup_release_all_is_Some, Hk1. }
    assert (K2 : ∀ x, x ∈ owned (subkey r) →
                      (x ∉ owned (key r)) ∧ (x ∉ field_blocks rest) ∧ is_Some (h' !! x)).
    { intros x Hx. apply Hk2 in Hx.
      apply lookup_release_all_is_Some in Hx as [? Hx].
      by apply lookup_release_all_is_Some in Hx as [? Hx]. }
    assert (K3 : ∀ x, x ∈ owned (value r) →
                      (x ∉ owned (subkey r)) ∧ (x ∉ owned (key r)) ∧
                      (x ∉ field_blocks rest) ∧ is_Some (h' !! x)).
    { intros x Hx. apply Hk3 in Hx.
      apply lookup_release_all_is_Some in Hx as [? Hx].
      apply lookup_release_all_is_Some in Hx as [? Hx].
      by apply lookup_release_all_is_Some in Hx as [? Hx]. }
    assert (K4 : (a ∉ owned (value r)) ∧ (a ∉ owned (subkey r)) ∧ (a ∉ owned (key r)) ∧
                 (a ∉ field_blocks rest) ∧ is_Some (h' !! a)).
    { assert (Hx : is_Some (h4 !! a)) by (apply Hk4; by left).
      apply lookup_release_all_is_Some in Hx as [? Hx].
      apply lookup_release_all_is_Some in Hx as [? Hx].
      apply lookup_release_all_is_Some in Hx as [? Hx].
      by apply lookup_release_all_is_Some in Hx as [? Hx]. }
    assert (Hnd_owned : ∀ q, NoDup (owned q)).
    { intros q. unfold owned. destruct (decide (q = NULL));
        [apply NoDup_nil_2 | apply NoDup_singleton]. }
    split; [| split; [| split]].
    + cbn [field_blocks]. rewrite !NoDup_app. repeat split; try done.
      * intros x Hx. rewrite !elem_of_app, list_elem_of_singleton.
        intros [H | [H | [H | ->]]].
        -- by apply K1 in H as [? _].
        -- by apply K2 in H as (_ & ? & _).
        -- by apply K3 in H as (_ & _ & ? & _).
        -- by destruct K4 as (_ & _ & _ & ? & _).
      * intros x Hx. rewrite !elem_of_app, list_elem_of_singleton.
        intros [H | [H | ->]].
        -- by apply K2 in H as (? & _).
        -- by apply K3 in H as (_ & ? & _).
        -- by destruct K4 as (_ & _ & ? & _).
      * intros x Hx. rewrite !elem_of_app, list_elem_of_singleton.
        intros [H | ->].
        -- by apply K3 in H as (? & _).
        -- by destruct K4 as (_ & ? & _).
      * intros x Hx. rewrite list_elem_of_singleton. intros ->.
        by destruct K4 as (? & _).
      * apply NoDup_singleton.
    + intros x. cbn [field_blocks]. rewrite !elem_of_app, list_elem_of_singleton.
      intros [H | [H | [H | [H | ->]]]].
      * by apply Hall.
      * by apply K1.
      * by apply K2.
      * by apply K3.
      * by destruct K4 as (_ & _ & _ & _ & ?).
    + simpl. lia.
    + cbn [field_blocks field_trace]. f_equal.
      * rewrite !release_all_app. rewrite owned_node by done. reflexivity.
      * rewrite <- !app_assoc. reflexivity.
Qed.

Lemma owned_NoDup q : NoDup (owned q).
Proof.
  unfold owned. destruct (decide (q = NULL)); [apply NoDup_nil_2 | apply NoDup_singleton].
Qed.

Lemma free_section_Done_inv sl : ∀ d p c h h' t s',
  section_chain h p sl → h' ⊆ h →
  free_section d p (mk_state c h' t) = Done tt s' →
  NoDup (section_blocks sl) ∧
  (∀ x, x ∈ section_blocks sl → is_Some (h' !! x)) ∧
  (section_depth sl ≤ d)%nat ∧
  s' = mk_state c (release_all (section_blocks sl) h') (t ++ section_trace sl).
Proof.
  induction sl as [| [a r fl] rest IH]; intros d p c h h' t s' Hc Hsub Hrun;
    (destruct d as [| d]; [done |]); simpl in Hc; cbn [free_section] in Hrun.
  - subst p. rewrite decide_True in Hrun by done. injection Hrun as <-.
    simpl. rewrite app_nil_r. repeat split; try done; try lia.
    + apply NoDup_nil_2.
    + by intros x ?%elem_of_nil.
  - destruct Hc as (-> & Hp & Hl & Hn & Hf & Hc).
    rewrite decide_False in Hrun by done.
    assert (Hback : ∀ (g : gmap N block) r', g ⊆ h → g !! a = Some (BSection r') → r' = r).
    { intros g r' Hg Hr'. eapply lookup_weaken in Hr'; [| exact Hg]. congruence. }
    apply bind_Done_inv in Hrun as (v0 & s0 & E0 & Hrun).
    apply load_section_Done_inv in E0 as (r0 & Hr0 & -> & ->).
    apply (Hback _ _ Hsub) in Hr0 as ->.
    apply bind_Done_inv in Hrun as ([] & s1 & E1 & Hrun).
    apply (IH _ _ _ h) in E1 as (Hnd & Hall & Hd & ->); [| done | done].
    set (h1 := release_all (section_blocks rest) h') in *.
    assert (Hsub1 : h1 ⊆ h) by (etrans; [apply release_all_subseteq | done]).
    apply bind_Done_inv in Hrun as (v1 & s2 & E2 & Hrun).
    apply load_section_Done_inv in E2 as (r1 & Hr1 & -> & ->).
    apply (Hback _ _ Hsub1) in Hr1 as ->.
    apply bind_Done_inv in Hrun as ([] & s3 & E3 & Hrun).
    apply free_Done_inv in E3 as (-> & Hk1).
    set (h2 := release_all (owned (name r)) h1) in *.
    assert (Hsub2 : h2 ⊆ h) by (etrans; [apply release_all_subseteq | done]).
    apply bind_Done_inv in Hrun as (v2 & s4 & E4 & Hrun).
    apply load_section_Done_inv in E4 as (r2 & Hr2 & -> & ->).
    apply (Hback _ _ Hsub2) in Hr2 as ->.
    apply bind_Done_inv in Hrun as ([] & s5 & E5 & Hrun).
    apply (free_field_Done_inv fl _ _ _ h) in E5 as (Hndf & Hallf & Hdf & ->);
      [| done | done].
    set (h3 := release_all (field_blocks fl) h2) in *.
    apply free_Done_inv in Hrun as (-> & Hk4).
    rewrite owned_node in Hk4 by done.
    assert (K1 : ∀ x, x ∈ owned (name r) → (x ∉ section_blocks rest) ∧ is_Some (h' !! x)).
    { intros x Hx. by apply lookup_release_all_is_Some, Hk1. }
    assert (K2 : ∀ x, x ∈ field_blocks fl →
                      (x ∉ owned (name r)) ∧ (x ∉ section_blocks rest) ∧ is_Some (h' !! x)).
    { intros x Hx. apply Hallf in Hx.
      apply lookup_release_all_is_Some in Hx as [? Hx].
      by apply lookup_release_all_is_Some in Hx as [? Hx]. }
    assert (K4 : (a ∉ field_blocks fl) ∧ (a ∉ owned (name r)) ∧
                 (a ∉ section_blocks rest) ∧ is_Some (h' !! a)).
    { assert (Hx : is_Some (h3 !! a)) by (apply Hk4; by left).
      apply lookup_release_all_is_Some in Hx as [? Hx].
      apply lookup_release_all_is_Some in Hx as [? Hx].
      by apply lookup_release_all_is_Some in Hx as [? Hx]. }
    cbn [section_blocks section_trace section_depth sn_addr sn_rec sn_fields].
    split; [| split; [| split]].
    + rewrite !NoDup_app. repeat split; try done.
      * intros x Hx. rewrite !elem_of_app, list_elem_of_singleton.
        intros [H | [H | ->]].
        -- by apply K1 in H as [? _].
        -- by apply K2 in H as (_ & ? & _).
        -- by destruct K4 as (_ & _ & ? & _).
      * apply owned_NoDup.
      * intros x Hx. rewrite !elem_of_app, list_elem_of_singleton.
        intros [H | ->].
        -- by apply K2 in H as (? & _).
        -- by destruct K4 as (_ & ? & _).
      * intros x Hx. rewrite list_elem_of_singleton. intros ->.
        by destruct K4 as (? & _).
      * apply NoDup_singleton.
    + intros x. rewrite !elem_of_app, list_elem_of_singleton.
      intros [H | [H | [H | ->]]].
      * by apply Hall.
      * by apply K1.
      * by apply K2.
      * by destruct K4 as (_ & _ & _ & ?).
    + unfold field_depth in *. lia.
    + f_equal.
      * rewrite !release_all_app. rewrite owned_node by done. reflexivity.
      * rewrite <- !app_assoc. reflexivity.
Qed.

(** ** Further properties of the teardown *)

(** X1: for a chain that is in the heap, the teardown returns exactly
    when no block is owned twice and the stack has room for the depth of
    the chain.  A block reached twice (a shared text, a shared field
    chain) makes the teardown fault. *)
Theorem release_returns_iff_exclusive
    (c : parse_context) (h : gmap N block) (t : list event) (ch : chain) (d : nat) :
  chain_in h ch →
  (∃ s', release d ch (mk_state c h t) = Done tt s')
  ↔ NoDup (chain_blocks ch) ∧ (chain_depth ch ≤ d)%nat.
Proof.
  destruct ch as [p sl | p fl]; simpl; intros Hc; split.
  - intros [s' Hrun].
    by apply (free_section_Done_inv sl _ _ _ h) in Hrun as (? & _ & ? & _).
  - intros [Hnd Hd]. eexists. by apply free_section_run.
  - intros [s' Hrun].
    by apply (free_field_Done_inv fl _ _ _ h) in Hrun as (? & _ & ? & _).
  - intros [Hnd Hd]. eexists. by apply free_field_run.
Qed.

Lemma shared_fields_chain : field_chain shared_heap 3 shared_fields.
Proof.
  repeat split; try done; try (by left); right; eexists; reflexivity.
Qed.

Lemma release_returns_iff_exclusive_witness :
  (∃ s', release 3 (Fields 3 shared_fields) (mk_state (mk_context NULL) shared_heap [])
         = Done tt s')
  ↔ NoDup (chain_blocks (Fields 3 shared_fields)) ∧
    (chain_depth (Fields 3 shared_fields) ≤ 3)%nat.
Proof.
  apply (release_returns_iff_exclusive (mk_context NULL) shared_heap []
           (Fields 3 shared_fields) 3).
  exact shared_fields_chain.
Defined.

(** X2: releasing a well-formed context changes the heap at the blocks
    of its chain and nowhere else: those are gone, every other block is
    as it was. *)
Theorem release_frame (s : state) (sl : list snode) (d : nat) :
  well_formed s sl →
  (section_depth sl ≤ d)%nat →
  ∃ s',
    parse_context_free d s = Done tt s' ∧
    ∀ x, heap s' !! x = if decide (x ∈ section_blocks sl) then None else heap s !! x.
Proof.
  destruct s as [c h t]. intros [Hc Hnd] Hd. simpl in Hc.
  eexists. split; [by apply (free_section_run sl) |].
  intros x. simpl. apply lookup_release_all.
Qed.

Lemma release_frame_witness :
  ∃ s',
    parse_context_free 4 os_state = Done tt s' ∧
    ∀ x, heap s' !! x
         = if decide (x ∈ section_blocks os_chain) then None else heap os_state !! x.
Proof.
  apply (release_frame os_state os_chain 4).
  - exact os_well_formed.
  - vm_compute. lia.
Defined.

(** X3: when the heap holds nothing but the blocks of the chain,
    releasing the context leaves the heap empty: nothing leaks. *)
Theorem release_leaves_no_block (s : state) (sl : list snode) (d : nat) :
  well_formed s sl →
  (section_depth sl ≤ d)%nat →
  (∀ x, is_Some (heap s !! x) → x ∈ section_blocks sl) →
  ∃ s', parse_context_free d s = Done tt s' ∧ heap s' = ∅.
Proof.
  destruct s as [c h t]. intros [Hc Hnd] Hd Hall. simpl in Hc, Hall.
  eexists. split; [by apply (free_section_run sl) |].
  simpl. apply map_eq. intros x. rewrite lookup_release_all, lookup_empty.
  destruct (decide (x ∈ section_blocks sl)) as [| Hx]; [done |].
  destruct (h !! x) as [b |] eqn:E; [| done].
  exfalso. apply Hx, Hall. by rewrite E.
Qed.

Lemma os_heap_owned x : is_Some (heap os_state !! x) → x ∈ section_blocks os_chain.
Proof.
  intros Hx. apply elem_of_dom in Hx.
  replace (dom (heap os_state)) with (list_to_set (C := gset N) (section_blocks os_chain))
    in Hx by (by vm_compute).
  by apply elem_of_list_to_set in Hx.
Qed.

Lemma release_leaves_no_block_witness :
  ∃ s', parse_context_free 4 os_state = Done tt s' ∧ heap s' = ∅.
Proof.
  apply (release_leaves_no_block os_state os_chain 4).
  - exact os_well_formed.
  - vm_compute. lia.
  - exact os_heap_owned.
Defined.

(** X4: releasing a populated context twice, without initializing it in
    between, faults: the second release reads the [next] member of the
    first section, which the first release has given back. *)
Theorem release_twice_faults (s : state) (sl : list snode) (d d' : nat) :
  well_formed s sl →
  sl ≠ [] →
  (section_depth sl ≤ d)%nat →
  (0 < d')%nat →
  (parse_context_free d ;;; parse_context_free d') s
  = Crash (BadLoad (parsed_index (ctx s)) m_next).
Proof.
  destruct s as [c h t]. intros [Hc Hnd] Hne Hd Hd'. simpl in Hc |- *.
  erewrite bind_Done by (by apply (free_section_run sl)).
  destruct sl as [| n rest]; [done |]. destruct Hc as (Hhead & Hp & _).
  destruct d' as [| d']; [lia |].
  unfold parse_context_free. cbn [ctx free_section].
  rewrite decide_False by done. apply bind_Crash.
  unfold load_section. cbn [heap]. rewrite decide_False by done.
  rewrite lookup_release_all, decide_True; [done |].
  rewrite Hhead. apply (section_addrs_blocks (n :: rest)).
  unfold section_addrs. simpl. by left.
Qed.

Lemma release_twice_faults_witness :
  (parse_context_free 4 ;;; parse_context_free 4) os_state
  = Crash (BadLoad (parsed_index (ctx os_state)) m_next).
Proof.
  apply (release_twice_faults os_state os_chain 4 4).
  - exact os_well_formed.
  - discriminate.
  - vm_compute. lia.
  - lia.
Defined.

(** X5: release, initialization, release again: the second release
    finds the empty context and does nothing, so the sequence returns
    with the chain released once and the context empty. *)
Theorem release_init_release (s : state) (sl : list snode) (d d' : nat) :
  well_formed s sl →
  (section_depth sl ≤ d)%nat →
  (0 < d')%nat →
  (parse_context_free d ;;; parse_context_init ;;; parse_context_free d') s
  = Done tt (mk_state (mk_context NULL)
               (release_all (section_blocks sl) (heap s))
               (trace s ++ section_trace sl)).
Proof.
  destruct s as [c h t]. intros [Hc Hnd] Hd Hd'. simpl in Hc |- *.
  erewrite bind_Done by (by apply (free_section_run sl)).
  erewrite bind_Done by reflexivity.
  destruct d' as [| d']; [lia |]. reflexivity.
Qed.

Lemma release_init_release_witness :
  (parse_context_free 4 ;;; parse_context_init ;;; parse_context_free 1) os_state
  = Done tt (mk_state (mk_context NULL)
               (release_all (section_blocks os_chain) (heap os_state))
               (trace os_state ++ section_trace os_chain)).
Proof.
  apply (release_init_release os_state os_chain 4 1).
  - exact os_well_formed.
  - vm_compute. lia.
  - lia.
Defined.

Lemma uniform_section_depth sl m :
  sl ≠ [] →
  Forall (λ x, length (sn_fields x) = m) sl →
  section_depth sl = (length sl + m + 1)%nat.
Proof.
  intros Hne Hm. induction Hm as [| x rest Hx Hrest IH]; [done |].
  cbn [section_depth length]. unfold field_depth. rewrite Hx.
  destruct rest as [| y rest'].
  - simpl. lia.
  - rewrite IH by done. simpl. lia.
Qed.

(** X6: releasing a well-formed context of [n >= 1] sections with [m]
    fields each returns exactly when the stack has room for [n + m + 1]
    nested activations: the depth adds the two lengths, it does not
    multiply them. *)
Theorem uniform_release_depth (s : state) (sl : list snode) (n m d : nat) :
  well_formed s sl →
  length sl = n →
  (0 < n)%nat →
  Forall (λ x, length (sn_fields x) = m) sl →
  (∃ s', parse_context_free d s = Done tt s') ↔ (n + m + 1 ≤ d)%nat.
Proof.
  destruct s as [c h t]. intros [Hc Hnd] Hn Hpos Hm. simpl in Hc.
  assert (Hne : sl ≠ []) by (intros ->; simpl in Hn; lia).
  pose proof (uniform_section_depth sl m Hne Hm) as Hdepth. rewrite Hn in Hdepth.
  unfold parse_context_free. simpl. split.
  - intros [s' Hrun]. destruct (decide (n + m + 1 ≤ d)%nat) as [| Hlt]; [done |].
    rewrite (free_section_overflow sl) in Hrun by (done || lia). done.
  - intros Hd. eexists. apply (free_section_run sl); [done | done | lia].
Qed.

Lemma uniform_release_depth_witness :
  (∃ s', parse_context_free 5 grid_state = Done tt s') ↔ (2 + 2 + 1 ≤ 5)%nat.
Proof.
  apply (uniform_release_depth grid_state grid_chain 2 2 5).
  - exact grid_well_formed.
  - reflexivity.
  - lia.
  - repeat constructor.
Defined.

(** X7: on a section chain with a cycle (following [next] never meets
    the terminator) the recursion does not end: whatever room the stack
    has, the teardown overflows it. *)
Theorem section_cycle_overflows
    (c : parse_context) (h : gmap N block) (t : list event)
    (C : list addr) (p : addr) (d : nat) :
  section_loop h C →
  p ∈ C →
  free_section d p (mk_state c h t) = Crash StackOverflow.
Proof.
  intros Hloop. revert p t.
  induction d as [| d IH]; intros p t Hp; [done |].
  destruct (Hloop p Hp) as (Hnn & r & Hr & Hnext).
  cbn [free_section]. rewrite decide_False by done.
  erewrite bind_Done by (by apply load_section_Done).
  apply bind_Crash. by apply IH.
Qed.

Lemma cyclic_heap_loop : section_loop cyclic_heap [1; 2].
Proof.
  intros a Ha. rewrite !elem_of_cons, elem_of_nil in Ha.
  destruct Ha as [-> | [-> | []]]; (split; [done |]); eexists;
    (split; [reflexivity |]); simpl; rewrite !elem_of_cons; tauto.
Qed.

Lemma section_cycle_overflows_witness :
  free_section 1000 1 (mk_state (mk_context 1) cyclic_heap []) = Crash StackOverflow.
Proof.
  apply (section_cycle_overflows (mk_context 1) cyclic_heap [] [1; 2] 1 1000).
  - exact cyclic_heap_loop.
  - by left.
Defined.

(** X8: the same for a field chain with a cycle. *)
Theorem field_cycle_overflows
    (c : parse_context) (h : gmap N block) (t : list event)
    (C : list addr) (p : addr) (d : nat) :
  field_loop h C →
  p ∈ C →
  free_field d p (mk_state c h t) = Crash StackOverflow.
Proof.
  intros Hloop. revert p t.
  induction d as [| d IH]; intros p t Hp; [done |].
  destruct (Hloop p Hp) as (Hnn & r & Hr & Hnext).
  cbn [free_field]. rewrite decide_False by done.
  erewrite bind_Done by (by apply load_field_Done).
  apply bind_Crash. by apply IH.
Qed.

Lemma looping_field_heap_loop : field_loop looping_field_heap [3].
Proof.
  intros a ->%list_elem_of_singleton. split; [done |]. eexists.
  split; [reflexivity |]. simpl. by left.
Qed.

Lemma field_cycle_overflows_witness :
  free_field 1000 3 (mk_state (mk_context NULL) looping_field_heap [])
  = Crash StackOverflow.
Proof.
  apply (field_cycle_overflows (mk_context NULL) looping_field_heap [] [3] 3 1000).
  - exact looping_field_heap_loop.
  - by left.
Defined.

Lemma reverse_concat {A} (ll : list (list A)) :
  reverse (concat ll) = concat (reverse (reverse <$> ll)).
Proof.
  induction ll as [| l ll IH]; [done |].
  cbn [concat fmap list_fmap]. rewrite reverse_app, reverse_cons, concat_app, IH.
  simpl. by rewrite app_nil_r.
Qed.

(** X9: the nodes are released from the far end of the chain: the
    section nodes in the reverse of the chain order, and the field nodes
    in the reverse of the order in which the chain lists them. *)
Theorem nodes_released_last_first (s : state) (sl : list snode) (d : nat) :
  well_formed s sl →
  (section_depth sl ≤ d)%nat →
  ∃ s' t,
    parse_context_free d s = Done tt s' ∧
    trace s' = trace s ++ t ∧
    filter (is_section_block (heap s)) (freed t) = reverse (section_addrs sl) ∧
    filter (is_field_block (heap s)) (freed t) = reverse (all_field_addrs sl).
Proof.
  destruct s as [c h t0]. intros [Hc Hnd] Hd. simpl in Hc.
  exists (mk_state c (release_all (section_blocks sl) h) (t0 ++ section_trace sl)),
         (section_trace sl).
  destruct (section_blocks_kind _ _ _ Hc) as [Hks Hkf].
  rewrite (freed_section_trace _ _ _ Hc). simpl.
  split; [by apply free_section_run |]. split; [done |]. split; [done |].
  rewrite Hkf. unfold all_field_addrs. rewrite reverse_concat.
  by rewrite <- list_fmap_compose.
Qed.

Lemma nodes_released_last_first_witness :
  ∃ s' t,
    parse_context_free 5 grid_state = Done tt s' ∧
    trace s' = trace grid_state ++ t ∧
    filter (is_section_block (heap grid_state)) (freed t)
    = reverse (section_addrs grid_chain) ∧
    filter (is_field_block (heap grid_state)) (freed t)
    = reverse (all_field_addrs grid_chain).
Proof.
  apply (nodes_released_last_first grid_state grid_chain 5).
  - exact grid_well_formed.
  - vm_compute. lia.
Defined.

Lemma free_calls_app t1 t2 : free_calls (t1 ++ t2) = (free_calls t1 + free_calls t2)%nat.
Proof. unfold free_calls. by rewrite filter_app, length_app. Qed.

Lemma loads_app t1 t2 : loads (t1 ++ t2) = (loads t1 + loads t2)%nat.
Proof. unfold loads. by rewrite filter_app, length_app. Qed.

Lemma field_trace_calls fl :
  free_calls (field_trace fl) = (4 * length fl)%nat ∧
  loads (field_trace fl) = (4 * length fl)%nat.
Proof.
  induction fl as [| [a r] rest [IH1 IH2]]; [done |].
  cbn [field_trace length]. rewrite !free_calls_app, !loads_app, IH1, IH2.
  split; [change (free_calls [EvLoad a m_next]) with 0%nat
         | change (loads [EvLoad a m_next]) with 1%nat].
  - change (free_calls [EvLoad a m_key; EvFree (key r); EvLoad a m_subkey;
                        EvFree (subkey r); EvLoad a m_value; EvFree (value r);
                        EvFree a]) with 4%nat. lia.
  - change (loads [EvLoad a m_key; EvFree (key r); EvLoad a m_subkey;
                   EvFree (subkey r); EvLoad a m_value; EvFree (value r);
                   EvFree a]) with 3%nat. lia.
Qed.

Lemma section_trace_calls sl :
  free_calls (section_trace sl) = (2 * length sl + 4 * total_fields sl)%nat ∧
  loads (section_trace sl) = (3 * length sl + 4 * total_fields sl)%nat.
Proof.
  unfold total_fields.
  induction sl as [| [a r fl] rest [IH1 IH2]]; [done |].
  destruct (field_trace_calls fl) as [F1 F2].
  cbn [section_trace length fmap list_fmap sum_list sum_list_with sn_addr sn_rec sn_fields].
  rewrite !free_calls_app, !loads_app, IH1, IH2, F1, F2.
  split; [change (free_calls [EvLoad a m_next]) with 0%nat
         | change (loads [EvLoad a m_next]) with 1%nat].
  - change (free_calls [EvLoad a m_name; EvFree (name r); EvLoad a m_fields]) with 1%nat.
    change (free_calls [EvFree a]) with 1%nat. unfold id. lia.
  - change (loads [EvLoad a m_name; EvFree (name r); EvLoad a m_fields]) with 2%nat.
    change (loads [EvFree a]) with 0%nat. unfold id. lia.
Qed.

(** X10: releasing a well-formed context of [n] sections holding [f]
    fields in all calls [free] exactly [2 n + 4 f] times, absent texts
    included, and reads a member of a node exactly [3 n + 4 f] times. *)
Theorem release_call_counts (s : state) (sl : list snode) (d : nat) :
  well_formed s sl →
  (section_depth sl ≤ d)%nat →
  ∃ s' t,
    parse_context_free d s = Done tt s' ∧
    trace s' = trace s ++ t ∧
    free_calls t = (2 * length sl + 4 * total_fields sl)%nat ∧
    loads t = (3 * length sl + 4 * total_fields sl)%nat.
Proof.
  destruct s as [c h t0]. intros [Hc Hnd] Hd. simpl in Hc.
  exists (mk_state c (release_all (section_blocks sl) h) (t0 ++ section_trace sl)),
         (section_trace sl).
  split; [by apply free_section_run |]. split; [done |].
  apply section_trace_calls.
Qed.

Lemma release_call_counts_witness :
  ∃ s' t,
    parse_context_free 5 grid_state = Done tt s' ∧
    trace s' = trace grid_state ++ t ∧
    free_calls t = (2 * length grid_chain + 4 * total_fields grid_chain)%nat ∧
    loads t = (3 * length grid_chain + 4 * total_fields grid_chain)%nat.
Proof.
  apply (release_call_counts grid_state grid_chain 5).
  - exact grid_well_formed.
  - vm_compute. lia.
Defined.

(** X11: two chains in one heap that share no block are released
    independently: releasing one leaves the other intact, the two
    releases succeed in either order, and both orders end in the same
    heap. *)
Theorem disjoint_chains_commute
    (c : parse_context) (h : gmap N block) (t : list event)
    (p q : addr) (sl1 sl2 : list snode) (d : nat) :
  section_chain h p sl1 →
  section_chain h q sl2 →
  NoDup (section_blocks sl1 ++ section_blocks sl2) →
  (section_depth sl1 ≤ d)%nat →
  (section_depth sl2 ≤ d)%nat →
  ∃ h',
    (free_section d p ;;; free_section d q) (mk_state c h t)
    = Done tt (mk_state c h' (t ++ section_trace sl1 ++ section_trace sl2)) ∧
    (free_section d q ;;; free_section d p) (mk_state c h t)
    = Done tt (mk_state c h' (t ++ section_trace sl2 ++ section_trace sl1)) ∧
    h' = release_all (section_blocks sl1 ++ section_blocks sl2) h.
Proof.
  intros Hc1 Hc2 Hnd Hd1 Hd2.
  apply NoDup_app in Hnd as (Hnd1 & Hdis & Hnd2).
  eexists. split; [| split; [| reflexivity]].
  - erewrite bind_Done by (by apply (free_section_run sl1)).
    rewrite (free_section_run sl2); [| | done | done].
    + by rewrite release_all_app, <- app_assoc.
    + eapply section_chain_agree; [| exact Hc2].
      intros x Hx. apply lookup_release_all_notin. intros Hin. by apply (Hdis x).
  - erewrite bind_Done by (by apply (free_section_run sl2)).
    rewrite (free_section_run sl1); [| | done | done].
    + rewrite <- app_assoc. f_equal. f_equal.
      rewrite <- release_all_app. apply release_all_perm.
      intros x. rewrite !elem_of_app. tauto.
    + eapply section_chain_agree; [| exact Hc1].
      intros x Hx. apply lookup_release_all_notin. intros Hin. by apply (Hdis x).
Qed.

Lemma pair_left_chain : section_chain pair_heap 1 pair_left.
Proof.
  repeat split; try done; try (by left); right; eexists; reflexivity.
Qed.

Lemma pair_right_chain : section_chain pair_heap 20 pair_right.
Proof.
  repeat split; try done; try (by left); right; eexists; reflexivity.
Qed.

Lemma disjoint_chains_commute_witness :
  ∃ h',
    (free_section 3 1 ;;; free_section 3 20) (mk_state (mk_context 1) pair_heap [])
    = Done tt (mk_state (mk_context 1) h'
                 ([] ++ section_trace pair_left ++ section_trace pair_right)) ∧
    (free_section 3 20 ;;; free_section 3 1) (mk_state (mk_context 1) pair_heap [])
    = Done tt (mk_state (mk_context 1) h'
                 ([] ++ section_trace pair_right ++ section_trace pair_left)) ∧
    h' = release_all (section_blocks pair_left ++ section_blocks pair_right) pair_heap.
Proof.
  apply (disjoint_chains_commute (mk_context 1) pair_heap [] 1 20 pair_left pair_right 3).
  - exact pair_left_chain.
  - exact pair_right_chain.
  - compute_done.
  - vm_compute. lia.
  - vm_compute. lia.
Defined.

(** ** What the teardown never does *)

Lemma only_releases_ret {A} (a : A) : only_releases (ret a).
Proof. by intros s a' s' [= _ <-]. Qed.

Lemma only_releases_raise {A} e : only_releases (@raise A e).
Proof. by intros s a s' H. Qed.

Lemma only_releases_bind {A B} (m : M A) (k : A → M B) :
  only_releases m → (∀ a, only_releases (k a)) → only_releases (bind m k).
Proof.
  intros Hm Hk s b s' Hrun.
  apply bind_Done_inv in Hrun as (a & s1 & E1 & E2).
  destruct (Hm _ _ _ E1) as [H1 P1]. destruct (Hk _ _ _ _ E2) as [H2 P2].
  split; [by etrans | by etrans].
Qed.

Lemma only_releases_free p : only_releases (free p).
Proof.
  intros [c h t] u s' Hrun. apply free_Done_inv in Hrun as [-> _]. simpl. split.
  - apply release_all_subseteq.
  - by apply prefix_app_r.
Qed.

Lemma only_releases_load_section p m sel : only_releases (load_section p m sel).
Proof.
  intros [c h t] v s' Hrun. apply load_section_Done_inv in Hrun as (r & _ & _ & ->).
  simpl. split; [done | by apply prefix_app_r].
Qed.

Lemma only_releases_load_field p m sel : only_releases (load_field p m sel).
Proof.
  intros [c h t] v s' Hrun. apply load_field_Done_inv in Hrun as (r & _ & _ & ->).
  simpl. split; [done | by apply prefix_app_r].
Qed.

Lemma only_releases_free_field d : ∀ p, only_releases (free_field d p).
Proof.
  induction d as [| d IH]; intros p; simpl.
  - apply only_releases_raise.
  - destruct (decide (p = NULL)); [apply only_releases_ret |].
    repeat (apply only_releases_bind; [| intros ?]);
      auto using only_releases_load_field, only_releases_free.
Qed.

Lemma only_releases_free_section d : ∀ p, only_releases (free_section d p).
Proof.
  induction d as [| d IH]; intros p; simpl.
  - apply only_releases_raise.
  - destruct (decide (p = NULL)); [apply only_releases_ret |].
    repeat (apply only_releases_bind; [| intros ?]);
      auto using only_releases_load_section, only_releases_free,
                 only_releases_free_field.
Qed.

(** X12: on any heap, well formed or not, a release that returns has
    only taken blocks away: every block left in the heap was there
    before with the same contents (nothing is allocated, nothing is
    written), and the events that had happened are still the beginning
    of the trace. *)
Theorem release_never_writes (s s' : state) (d : nat) :
  parse_context_free d s = Done tt s' →
  (∀ x b, heap s' !! x = Some b → heap s !! x = Some b) ∧
  trace s `prefix_of` trace s'.
Proof.
  intros Hrun. apply only_releases_free_section in Hrun as [Hsub Hpre].
  split; [| done]. intros x b Hx. by eapply lookup_weaken.
Qed.

Lemma release_never_writes_witness :
  (∀ x b, heap os_released !! x = Some b → heap os_state !! x = Some b) ∧
  trace os_state `prefix_of` trace os_released.
Proof.
  apply (release_never_writes os_state os_released 4).
  vm_compute. reflexivity.
Defined.

Lemma field_chain_allocated h fl : ∀ p,
  field_chain h p fl → ∀ x, x ∈ field_blocks fl → is_Some (h !! x).
Proof.
  induction fl as [| [a r] rest IH]; intros p; simpl; [by intros _ x ?%elem_of_nil |].
  intros (-> & Hp & Hl & Hk & Hsk & Hv & Hc) x.
  assert (Htext : ∀ q, text_at h q → x ∈ owned q → is_Some (h !! x)).
  { intros q [-> | [s Hs]] Hx.
    - by apply elem_of_nil in Hx.
    - apply elem_of_owned in Hx as [-> _]. by rewrite Hs. }
  rewrite !elem_of_app, list_elem_of_singleton.
  intros [H | [H | [H | [H | ->]]]]; eauto.
Qed.

Lemma section_chain_allocated h sl : ∀ p,
  section_chain h p sl → ∀ x, x ∈ section_blocks sl → is_Some (h !! x).
Proof.
  induction sl as [| n rest IH]; intros p; simpl; [by intros _ x ?%elem_of_nil |].
  intros (-> & Hp & Hl & Hn & Hf & Hc) x.
  rewrite !elem_of_app, list_elem_of_singleton.
  intros [H | [H | [H | ->]]]; eauto.
  - destruct Hn as [Hn | [s Hs]].
    + rewrite Hn in H. by apply elem_of_nil in H.
    + apply elem_of_owned in H as [-> _]. by rewrite Hs.
  - by eapply field_chain_allocated.
Qed.

(** X13: initialization releases nothing.  Run on a context that owns a
    chain, it forgets the chain: the release that follows makes no call
    to [free], and every block of the chain stays in the heap, out of
    reach of the context. *)
Theorem init_forgets_chain (s : state) (sl : list snode) (d : nat) :
  well_formed s sl →
  (0 < d)%nat →
  ∃ s',
    (parse_context_init ;;; parse_context_free d) s = Done tt s' ∧
    trace s' = trace s ∧
    parsed_index (ctx s') = NULL ∧
    ∀ x, x ∈ section_blocks sl → is_Some (heap s' !! x).
Proof.
  destruct s as [c h t]. intros [Hc _] Hd. simpl in Hc.
  destruct d as [| d]; [lia |].
  eexists. split; [reflexivity |]. simpl. repeat split.
  by apply (section_chain_allocated h sl (parsed_index c)).
Qed.

Lemma init_forgets_chain_witness :
  ∃ s',
    (parse_context_init ;;; parse_context_free 1) os_state = Done tt s' ∧
    trace s' = trace os_state ∧
    parsed_index (ctx s') = NULL ∧
    ∀ x, x ∈ section_blocks os_chain → is_Some (heap s' !! x).
Proof.
  apply (init_forgets_chain os_state os_chain 1).
  - exact os_well_formed.
  - lia.
Defined.

(** X14: when the chain is in the heap and owns its blocks exclusively,
    the only way the teardown can fail is the stack: with less room than
    the depth of the chain it overflows, and it faults in no other
    way. *)
Theorem release_fails_only_by_overflow
    (c : parse_context) (h : gmap N block) (t : list event) (ch : chain) (d : nat) :
  chain_at h ch →
  (d < chain_depth ch)%nat →
  release d ch (mk_state c h t) = Crash StackOverflow.
Proof.
  destruct ch as [p sl | p fl]; simpl; intros [Hc Hnd] Hd.
  - by apply (free_section_overflow sl).
  - by apply (free_field_overflow fl).
Qed.

Lemma release_fails_only_by_overflow_witness :
  release 4 (Sections 1 grid_chain) (mk_state (mk_context 1) grid_heap [])
  = Crash StackOverflow.
Proof.
  apply (release_fails_only_by_overflow (mk_context 1) grid_heap []
           (Sections 1 grid_chain) 4).
  - exact grid_well_formed.
  - vm_compute. lia.
Defined.
